(** * The segment engine of the HTM temporal pooler ([segment.go])

    A shallow embedding of [segment.go]: the [Segment] and [Synapse]
    structs, the tiered duty cycle, the synapse update and free
    operations, the segment-update proposal and the debug printer.

    Conventions of the embedding.
    - Go's [int] is the 64-bit two's-complement integer of the amd64
      port: a [Z] kept in range by [wrap64] after every subtraction.
    - Go's [float64] is IEEE 754 binary64, i.e. Rocq's primitive [float];
      [+], [-], [*], [/] and the comparisons are the kernel's.
    - A method with a pointer receiver [s *Segment] is a computation in
      the monad [M], which threads the pointee and records a panic
      together with the state the segment was left in.
    - The back-reference [s.tp] is only ever read by the methods below;
      the pointee is passed as the explicit argument [tp].
    - Lines written to standard output by [fmt.Printf]/[fmt.Println]
      under [Verbosity >= 4] are not part of the state modelled here. *)

From Stdlib Require Import ZArith String Ascii List FinFun Sorted Floats Bool Lia DecimalString.
Import ListNotations.

#[local] Set Warnings "-inexact-float".
#[local] Open Scope Z_scope.

(** ** Go runtime conventions *)

Module Go.

(** Wrap-around of a 64-bit signed integer. *)
Definition wrap64 (z : Z) : Z := (z + 2 ^ 63) mod 2 ^ 64 - 2 ^ 63.

(** [a - b] on [int]. *)
Definition int_sub (a b : Z) : Z := wrap64 (a - b).

(** The conversion [float64(i)]: the integer rounded to the nearest
    binary64 value, ties to even. *)
Definition float64_of_int (i : Z) : float :=
  SF2Prim (binary_normalize prec emax i 0 false).

(** [len(l)] as an [int]. *)
Definition len {A : Type} (l : list A) : Z := Z.of_nat (length l).

(** What a panic carries: the argument of an explicit [panic(..)] call,
    or one of the two runtime errors the code can raise. *)
Inductive panic_value : Type :=
| Explicit (msg : string)
| IndexOutOfRange
| MakesliceLenOutOfRange.

Inductive outcome (A : Type) : Type :=
| Returns (a : A)
| Panics (p : panic_value).
Arguments Returns {A} a.
Arguments Panics {A} p.

(** [%v] of an [int] and of a [bool]. *)
Definition fmtInt (i : Z) : string := NilZero.string_of_int (Z.to_int i).
Definition fmtBool (b : bool) : string := if b then "true"%string else "false"%string.

(** [l[i] = v]; out of range is handled by the caller with [index]. *)
Fixpoint setNth {A : Type} (l : list A) (i : nat) (v : A) : list A :=
  match l, i with
  | [], _ => []
  | _ :: t, O => v :: t
  | h :: t, S i' => h :: setNth t i' v
  end.

End Go.
Import Go.

(** ** Data model *)

Record Synapse : Type := mkSynapse {
  SrcCellCol : Z;
  SrcCellIdx : Z;
  Permanence : float
}.

(** The fields of [TemporalPooler] and of its parameter block that
    [segment.go] reads; the struct itself is declared in another file. *)
Record TemporalPoolerParams : Type := mkParams {
  PermanenceMax : float;
  NewSynapseCount : Z;
  Verbosity : Z
}.

Record TemporalPooler : Type := mkTp {
  params : TemporalPoolerParams;
  lrnIterationIdx : Z
}.

Record Segment : Type := mkSegment {
  segId : Z;
  isSequenceSeg : bool;
  lastActiveIteration : Z;
  positiveActivations : Z;
  totalActivations : Z;
  lastPosDutyCycle : float;
  lastPosDutyCycleIteration : Z;
  syns : list Synapse
}.

Definition set_lastPosDutyCycle (v : float) (s : Segment) : Segment :=
  mkSegment (segId s) (isSequenceSeg s) (lastActiveIteration s)
            (positiveActivations s) (totalActivations s)
            v (lastPosDutyCycleIteration s) (syns s).

Definition set_lastPosDutyCycleIteration (v : Z) (s : Segment) : Segment :=
  mkSegment (segId s) (isSequenceSeg s) (lastActiveIteration s)
            (positiveActivations s) (totalActivations s)
            (lastPosDutyCycle s) v (syns s).

Definition set_syns (v : list Synapse) (s : Segment) : Segment :=
  mkSegment (segId s) (isSequenceSeg s) (lastActiveIteration s)
            (positiveActivations s) (totalActivations s)
            (lastPosDutyCycle s) (lastPosDutyCycleIteration s) v.

Definition set_Permanence (v : float) (y : Synapse) : Synapse :=
  mkSynapse (SrcCellCol y) (SrcCellIdx y) v.

(** ** The method monad: segment state plus panics *)

Definition M (A : Type) : Type := Segment -> outcome A * Segment.

Definition ret {A : Type} (a : A) : M A := fun s => (Returns a, s).

Definition bind {A B : Type} (m : M A) (k : A -> M B) : M B :=
  fun s =>
    match m s with
    | (Returns a, s') => k a s'
    | (Panics p, s') => (Panics p, s')
    end.

Definition panic {A : Type} (p : panic_value) : M A := fun s => (Panics p, s).
Definition get : M Segment := fun s => (Returns s, s).
Definition modify (f : Segment -> Segment) : M unit := fun s => (Returns tt, f s).
Definition lift {A : Type} (o : outcome A) : M A := fun s => (o, s).

Declare Scope go_scope.
Delimit Scope go_scope with go.
Notation "x <- m ;; k" := (bind m (fun x => k))
  (at level 61, m at next level, right associativity) : go_scope.
Notation "m ;;; k" := (bind m (fun _ => k))
  (at level 61, right associativity) : go_scope.
#[local] Open Scope go_scope.

(** [l[i]] with Go's bounds check. *)
Definition index {A : Type} (l : list A) (i : Z) : M A :=
  if i <? 0 then panic IndexOutOfRange
  else match nth_error l (Z.to_nat i) with
       | Some a => ret a
       | None => panic IndexOutOfRange
       end.

(** A [for] loop over the positions [idxs], threading the loop-carried
    locals [acc]. *)
Fixpoint forEach {I L : Type} (body : L -> I -> M L) (acc : L) (idxs : list I) : M L :=
  match idxs with
  | [] => ret acc
  | i :: rest => acc' <- body acc i ;; forEach body acc' rest
  end.

(** ** Duty-cycle tables *)

Definition SegmentDutyCycleTiers : list Z :=
  [0; 100; 320; 1000; 3200; 10000; 32000; 100000; 320000].

Definition SegmentDutyCycleAlphas : list float :=
  [0; 0.0032; 0.0010; 0.00032; 0.00010; 0.000032; 0.00001; 0.0000032; 0.0000010]%float.

(** The loop
    [for i := len(Tiers)-1; i > 0; i-- { if lrn > Tiers[i] { alpha = Alphas[i]; break } }]
    started at [i] with [alpha] still [0.0]. *)
Fixpoint alphaLoop (i : nat) (lrn : Z) : float :=
  match i with
  | O => 0%float
  | S i' =>
      if lrn >? nth i SegmentDutyCycleTiers 0
      then nth i SegmentDutyCycleAlphas 0%float
      else alphaLoop i' lrn
  end.

Definition selectAlpha (lrn : Z) : float :=
  alphaLoop (length SegmentDutyCycleTiers - 1) lrn.

(** The positions visited by [for idx := range l] and by
    [for i := 0; i < n; i++]. *)
Definition positions {A : Type} (l : list A) : list Z :=
  map Z.of_nat (seq 0 (length l)).

Definition upto (n : Z) : list Z := map Z.of_nat (seq 0 (Z.to_nat n)).

(** The pairs visited by [for idx, val := range l]. *)
Definition enumerate {A : Type} (l : list A) : list (Z * A) :=
  combine (positions l) l.

(** [make([]T, n)] filled with the zero value [z]. *)
Definition make {A : Type} (z : A) (n : Z) : M (list A) :=
  if n <? 0 then panic MakesliceLenOutOfRange else ret (repeat z (Z.to_nat n)).

(** [mathutil.Min] of [github.com/cznic/mathutil]. *)
Definition Min (a b : Z) : Z := if a <? b then a else b.

(** Modelled from the spec: [utils.ContainsInt] lives in the repository's
    [utils] package, which is not among the sources; §4.6 uses it as the
    membership test that separates the inactive indices from the others
    and the freed indices from the survivors. *)
Definition ContainsInt (q : Z) (vals : list Z) : bool := existsb (Z.eqb q) vals.

(** Modelled from the spec: the proposal structs are declared with the
    temporal pooler, outside the sources; §3 gives
    [{columnIdx, cellIdx, segment (nullable), activeSynapses: ordered list
    of {index, cellIndex, isNew}}]. The [segment] pointer is read as the
    segment it points to on return. *)
Record SynapseUpdateState : Type := mkSynapseUpdateState {
  New : bool;
  Index : Z;
  CellIndex : Z
}.

Record SegmentUpdate : Type := mkSegmentUpdate {
  columnIdx : Z;
  cellIdx : Z;
  segment : option Segment;
  activeSynapses : list SynapseUpdateState
}.

(** An entry of a sparse matrix, as [chooseCellsToLearnFrom] returns them. *)
Record SparseEntry : Type := mkSparseEntry {
  Row : Z;
  Col : Z
}.

(** ** [floats.Argsort] of gonum

    [Argsort(dst, inds)] sorts [dst] in place and records in [inds] where
    each element came from; it panics when the two lengths differ. It can
    only overwrite elements: the slices of its caller keep their lengths.
    The library sorts with [sort.Sort], which fixes no order among equal
    keys; the insertion sort below keeps them in their original order.
    Nothing below depends on the text of the panic message. *)

Fixpoint insertByPerm (x : float * Z) (l : list (float * Z)) : list (float * Z) :=
  match l with
  | [] => [x]
  | y :: t => if (fst y <? fst x)%float then y :: insertByPerm x t else x :: l
  end.

Definition sortByPerm (l : list (float * Z)) : list (float * Z) :=
  fold_right insertByPerm [] l.

Definition gonum_Argsort (dst : list float) (inds : list Z)
  : outcome (list float * list Z) :=
  if Nat.eqb (length dst) (length inds) then
    let sorted := sortByPerm (combine dst (positions dst)) in
    Returns (map fst sorted, map snd sorted)
  else Panics (Explicit "floats: length of inds does not match length of slice").

(** ** The operations of [segment.go] *)

Section Operations.

(** [math.Pow] of Go's standard library. *)
Variable Pow : float -> float -> float.

(** [%v] of a [float64], as [fmt] prints it. *)
Variable fmtFloat : float -> string.

(** [floats.Argsort]: the new contents of [dst] and [inds], or a panic. *)
Variable Argsort : list float -> list Z -> outcome (list float * list Z).

(** [tp.GetSegId()], defined with the temporal pooler: the id drawn and
    the pooler after the draw. *)
Variable GetSegId : TemporalPooler -> Z * TemporalPooler.

(** The temporal layer's collaborators of §6: the [activeState] matrix
    with its lookup [Get(column, cell)], and the cell-selection policy. *)
Variable SparseBinaryMatrix : Type.
Variable Get : SparseBinaryMatrix -> Z -> Z -> bool.
Variable chooseCellsToLearnFrom :
  TemporalPooler -> option Segment -> Z -> SparseBinaryMatrix -> list SparseEntry.

(** [func NewSegment(tp *TemporalPooler, isSequenceSeg bool) *Segment] *)
Definition NewSegment (tp : TemporalPooler) (isSequenceSeg : bool)
  : Segment * TemporalPooler :=
  let (id, tp) := GetSegId tp in
  ({| segId := id;
      isSequenceSeg := isSequenceSeg;
      lastActiveIteration := lrnIterationIdx tp;
      positiveActivations := 1;
      totalActivations := 1;
      lastPosDutyCycle := (1 / float64_of_int (lrnIterationIdx tp))%float;
      lastPosDutyCycleIteration := lrnIterationIdx tp;
      syns := [] |}, tp).

(** [func (s *Segment) dutyCycle(active, readOnly bool) float64] *)
Definition dutyCycle (tp : TemporalPooler) (active readOnly : bool) : M float :=
  if lrnIterationIdx tp <=? nth 1 SegmentDutyCycleTiers 0 then
    s <- get ;;
    let dc := (float64_of_int (positiveActivations s)
               / float64_of_int (lrnIterationIdx tp))%float in
    (if negb readOnly
     then modify (set_lastPosDutyCycleIteration (lrnIterationIdx tp)) ;;;
          modify (set_lastPosDutyCycle dc)
     else ret tt) ;;;
    ret dc
  else
    s <- get ;;
    let age := int_sub (lrnIterationIdx tp) (lastPosDutyCycleIteration s) in
    if (age =? 0) && negb active then ret (lastPosDutyCycle s)
    else
      let alpha := selectAlpha (lrnIterationIdx tp) in
      let dc := (Pow (1 - alpha) (float64_of_int age) * lastPosDutyCycle s)%float in
      let dc := if active then (dc + alpha)%float else dc in
      (if negb readOnly
       then modify (set_lastPosDutyCycleIteration (lrnIterationIdx tp)) ;;;
            modify (set_lastPosDutyCycle dc)
       else ret tt) ;;;
      ret dc.

(** [s.syns[idx]] read, and [s.syns[idx].Permanence = v] written. *)
Definition readSyn (idx : Z) : M Synapse :=
  s <- get ;; index (syns s) idx.

Definition writePermanence (idx : Z) (v : float) : M unit :=
  y <- readSyn idx ;;
  modify (fun s => set_syns (setNth (syns s) (Z.to_nat idx) (set_Permanence v y)) s).

(** The body of the loop that [updateSynapses] runs when [delta > 0]:
    [s.syns[idx].Permanence += delta], then the cap at [PermanenceMax]. *)
Definition raiseStep (tp : TemporalPooler) (delta : float) (_ : unit) (idx : Z)
  : M unit :=
  y <- readSyn idx ;;
  writePermanence idx (Permanence y + delta)%float ;;;
  y <- readSyn idx ;;
  if (PermanenceMax (params tp) <? Permanence y)%float
  then writePermanence idx (PermanenceMax (params tp))
  else ret tt.

(** The body of the other loop: the same addition, then the floor at 0
    that also raises [hitZero]. *)
Definition lowerStep (delta : float) (hitZero : bool) (idx : Z) : M bool :=
  y <- readSyn idx ;;
  writePermanence idx (Permanence y + delta)%float ;;;
  y <- readSyn idx ;;
  if (Permanence y <=? 0)%float
  then writePermanence idx 0%float ;;; ret true
  else ret hitZero.

(** [func (s *Segment) updateSynapses(synapses []int, delta float64) bool];
    both loops are [for idx, _ := range synapses]. *)
Definition updateSynapses (tp : TemporalPooler) (synapses : list Z) (delta : float)
  : M bool :=
  let hitZero := false in
  if (0 <? delta)%float then
    forEach (raiseStep tp delta) tt (positions synapses) ;;;
    ret hitZero
  else
    forEach (lowerStep delta) hitZero (positions synapses).

(** [func (s *Segment) AddSynapse(srcCellCol, srcCellIdx int, perm float64)] *)
Definition AddSynapse (srcCellCol srcCellIdx : Z) (perm : float) : M unit :=
  modify (fun s => set_syns (syns s ++ [mkSynapse srcCellCol srcCellIdx perm]) s).

(** The loop [for idx := range perms { perms[idx] = s.syns[idx].Permanence }],
    which both halves of [freeNSynapses] run over their [perms]. *)
Definition fillPerms (perms : list float) : M (list float) :=
  forEach (fun perms idx =>
             y <- readSyn idx ;;
             ret (setNth perms (Z.to_nat idx) (Permanence y)))
          perms (positions perms).

(** The block under [if len(inactiveSynapseIndices) > 0]: the value it
    leaves in [candidates]. *)
Definition inactiveCandidates (numToFree : Z) (inactiveSynapseIndices : list Z)
  : M (list Z) :=
  perms <- make 0%float (len inactiveSynapseIndices) ;;
  perms <- fillPerms perms ;;
  let indexes : list Z := [] in
  sorted <- lift (Argsort perms indexes) ;;
  let indexes := snd sorted in
  let cSize := Min numToFree (len perms) in
  candidates <- make 0 cSize ;;
  forEach (fun candidates i =>
             j <- index indexes i ;;
             v <- index inactiveSynapseIndices j ;;
             ret (setNth candidates (Z.to_nat i) v))
          candidates (upto cSize).

(** The block under [if len(candidates) < numToFree]: [candidates] with
    the indices taken from the other synapses appended. *)
Definition activeCandidates (numToFree : Z) (inactiveSynapseIndices : list Z)
           (candidates : list Z) : M (list Z) :=
  s <- get ;;
  let activeSynIndices :=
    filter (fun i => negb (ContainsInt i inactiveSynapseIndices))
           (positions (syns s)) in
  perms <- make 0%float (len activeSynIndices) ;;
  perms <- fillPerms perms ;;
  let indexes : list Z := [] in
  sorted <- lift (Argsort perms indexes) ;;
  let indexes := snd sorted in
  let moreToFree := int_sub numToFree (len candidates) in
  forEach (fun candidates i =>
             j <- index indexes i ;;
             v <- index activeSynIndices j ;;
             ret (candidates ++ [v]))
          candidates (upto moreToFree).

(** The last loop: the synapses whose position is not in [candidates]. *)
Definition survivors (candidates : list Z) (syns : list Synapse) : list Synapse :=
  map snd (filter (fun iv => negb (ContainsInt (fst iv) candidates))
                  (enumerate syns)).

(** [func (s *Segment) freeNSynapses(numToFree int, inactiveSynapseIndices []int)] *)
Definition freeNSynapses (tp : TemporalPooler) (numToFree : Z)
           (inactiveSynapseIndices : list Z) : M unit :=
  s <- get ;;
  if numToFree >? len (syns s) then
    panic (Explicit "Number to free cannot be larger than existing synapses.")
  else
    candidates <-
      (if len inactiveSynapseIndices >? 0
       then inactiveCandidates numToFree inactiveSynapseIndices
       else ret []) ;;
    candidates <-
      (if len candidates <? numToFree
       then activeCandidates numToFree inactiveSynapseIndices candidates
       else ret candidates) ;;
    s <- get ;;
    modify (set_syns (survivors candidates (syns s))).

(** The first loop of [getSegmentActiveSynapses]: the synapses of [s]
    whose source cell is active, appended to [activeSynapses]. *)
Fixpoint collectActive (activeState : SparseBinaryMatrix)
         (activeSynapses : list SynapseUpdateState) (items : list (Z * Synapse))
  : list SynapseUpdateState :=
  match items with
  | [] => activeSynapses
  | (idx, val) :: rest =>
      if Get activeState (SrcCellCol val) (SrcCellIdx val)
      then collectActive activeState
             (activeSynapses ++ [mkSynapseUpdateState false idx 0]) rest
      else collectActive activeState activeSynapses rest
  end.

(** The list that the first loop leaves: empty for a nil segment. *)
Definition baseActiveSynapses (s : option Segment) (activeState : SparseBinaryMatrix)
  : list SynapseUpdateState :=
  match s with
  | Some seg => collectActive activeState [] (enumerate (syns seg))
  | None => []
  end.

(** [func (tp *TemporalPooler) getSegmentActiveSynapses(c int, i int,
      s *Segment, activeState *SparseBinaryMatrix, newSynapses bool) *SegmentUpdate]:
    the proposal, and the segment as the call leaves it. *)
Definition getSegmentActiveSynapses (tp : TemporalPooler) (c i : Z)
           (s : option Segment) (activeState : SparseBinaryMatrix)
           (newSynapses : bool) : SegmentUpdate * option Segment :=
  let activeSynapses := baseActiveSynapses s activeState in
  let activeSynapses :=
    if newSynapses then
      let nSynapsesToAdd :=
        int_sub (NewSynapseCount (params tp)) (len activeSynapses) in
      let newSyns := chooseCellsToLearnFrom tp s nSynapsesToAdd activeState in
      fold_left (fun acc val => acc ++ [mkSynapseUpdateState true (Row val) (Col val)])
                newSyns activeSynapses
    else activeSynapses in
  ({| columnIdx := c; cellIdx := i; segment := s;
      activeSynapses := activeSynapses |}, s).

(** The newline that ends the debug line. *)
Definition newline : string := String (ascii_of_nat 10) EmptyString.

(** [func (s *Segment) ToString() string] *)
Definition ToString (tp : TemporalPooler) : M string :=
  s <- get ;;
  let result :=
    ("ID:" ++ fmtInt (segId s) ++ " " ++ fmtBool (isSequenceSeg s) ++ " ")%string in
  dc <- dutyCycle tp false true ;;
  let result := (result ++ fmtFloat dc)%string in
  s <- get ;;
  let result :=
    (result ++ (" (" ++ fmtInt (positiveActivations s) ++ "/"
                ++ fmtInt (totalActivations s) ++ ") "))%string in
  let result :=
    (result ++ fmtInt (int_sub (lrnIterationIdx tp) (lastActiveIteration s)))%string in
  let result :=
    fold_left (fun result syn =>
                 (result ++ (" [" ++ fmtInt (SrcCellCol syn) ++ ","
                             ++ fmtInt (SrcCellIdx syn) ++ "]"
                             ++ fmtFloat (Permanence syn)))%string)
              (syns s) result in
  ret (result ++ newline)%string.

End Operations.

Arguments collectActive {SparseBinaryMatrix} Get activeState activeSynapses items.
Arguments baseActiveSynapses {SparseBinaryMatrix} Get s activeState.
Arguments getSegmentActiveSynapses {SparseBinaryMatrix} Get chooseCellsToLearnFrom
  tp c i s activeState newSynapses.

(** ** The claim's reading of the tier table

    §4.3 words the choice of [alpha] as "the largest tier threshold <=
    current iteration"; this is that reading, to be compared with
    [selectAlpha]. The table is ascending, so the last row that passes the
    test holds the largest such threshold. *)
Definition alphaOfLargestTierLe (lrn : Z) : float :=
  last (map snd (filter (fun row => fst row <=? lrn)
                        (combine SegmentDutyCycleTiers SegmentDutyCycleAlphas)))
       0%float.

(** The moving average as the claim writes it. *)
Definition movingAverageAsWorded (Pow : float -> float -> float)
           (tp : TemporalPooler) (s : Segment) (active : bool) : float :=
  let alpha := alphaOfLargestTierLe (lrnIterationIdx tp) in
  let age := int_sub (lrnIterationIdx tp) (lastPosDutyCycleIteration s) in
  (Pow (1 - alpha) (float64_of_int age) * lastPosDutyCycle s
   + (if active then alpha else 0))%float.

(** ** Concrete segments used by the examples *)

Definition exampleParams : TemporalPoolerParams :=
  {| PermanenceMax := 1%float; NewSynapseCount := 3; Verbosity := 0 |}.

Definition exampleTp (lrn : Z) : TemporalPooler :=
  {| params := exampleParams; lrnIterationIdx := lrn |}.

Definition exampleSegment (perms : list float) : Segment :=
  {| segId := 54413; isSequenceSeg := true; lastActiveIteration := 40;
     positiveActivations := 24; totalActivations := 36;
     lastPosDutyCycle := 0.5%float; lastPosDutyCycleIteration := 40;
     syns := map (fun ip => mkSynapse (9 + fst ip) 1 (snd ip)) (enumerate perms) |}.

(** A segment whose duty cycle was cached, at value 0, at iteration 320. *)
Definition segmentCachedAt320 : Segment :=
  {| segId := 54413; isSequenceSeg := true; lastActiveIteration := 320;
     positiveActivations := 24; totalActivations := 36;
     lastPosDutyCycle := 0%float; lastPosDutyCycleIteration := 320;
     syns := [] |}.

(** [math.Pow] on the special cases its documentation fixes for every
    base: [Pow(x, 0) = 1], [Pow(1, y) = 1] and [Pow(x, 1) = x]. The
    examples stay within them; elsewhere this stand-in answers NaN. *)
Definition PowSpecialCases (x y : float) : float :=
  if ((y =? 0) || (x =? 1))%float then 1%float
  else if (y =? 1)%float then x else nan.

(** What the two loop bodies of [updateSynapses] do to one synapse. *)
Definition raised (max delta : float) (y : Synapse) : Synapse :=
  let p := (Permanence y + delta)%float in
  set_Permanence (if (max <? p)%float then max else p) y.

Definition lowered (delta : float) (y : Synapse) : Synapse :=
  let p := (Permanence y + delta)%float in
  set_Permanence (if (p <=? 0)%float then 0%float else p) y.

Definition hitsZero (delta : float) (y : Synapse) : bool :=
  (Permanence y + delta <=? 0)%float.

(** [f] applied to the first [m] elements of a list. *)
Fixpoint mapFirst {A : Type} (f : A -> A) (m : nat) (l : list A) : list A :=
  match m, l with
  | S m', x :: t => f x :: mapFirst f m' t
  | _, _ => l
  end.

(** A stand-in for [tp.GetSegId()] that always draws the id of the
    source's own example and leaves the pooler alone. *)
Definition exampleGetSegId (tp : TemporalPooler) : Z * TemporalPooler := (54413, tp).

(** [%v] of the two floats that the printed example contains. *)
Definition fmtFloatOfExample (f : float) : string :=
  if (f =? 0.5)%float then "0.5"%string
  else if (f =? 0.75)%float then "0.75"%string
  else "?"%string.

(** All the strings of a list, one after the other. *)
Definition joinAll (l : list string) : string := fold_right String.append EmptyString l.

(** How [ToString] prints one synapse. *)
Definition synapseText (fmtFloat : float -> string) (y : Synapse) : string :=
  (" [" ++ fmtInt (SrcCellCol y) ++ "," ++ fmtInt (SrcCellIdx y) ++ "]"
   ++ fmtFloat (Permanence y))%string.

(** Whether the source cell of a synapse is active in [activeState]. *)
Definition sourceActive {SparseBinaryMatrix : Type}
           (Get : SparseBinaryMatrix -> Z -> Z -> bool)
           (activeState : SparseBinaryMatrix) (y : Synapse) : bool :=
  Get activeState (SrcCellCol y) (SrcCellIdx y).

(** A run that leaves the segment [s] as it was and, if it returns,
    returns a value satisfying [Q]. *)
Definition pureWith {A : Type} (s : Segment) (Q : A -> Prop)
           (r : outcome A * Segment) : Prop :=
  snd r = s /\ forall a, fst r = Returns a -> Q a.

(** ** [Equals] and the helper of the pooler tests *)

(** The address held in a segment's back-reference [tp]; [Equals]
    compares the two pointers, not what they point to. *)
Definition TpAddr : Type := Z.

(** The test of the loop of [Equals]: some field of the two synapses differs. *)
Definition synapsesDiffer (other val : Synapse) : bool :=
  negb (Permanence other =? Permanence val)%float
  || negb (SrcCellCol other =? SrcCellCol val)
  || negb (SrcCellIdx other =? SrcCellIdx val).

(** The loop [for idx, val := range s.syns] of [Equals], reading
    [seg.syns[idx]]: [Returns false] is the early [return false],
    [Returns true] is the loop running to its end. *)
Fixpoint equalsLoop (segSyns : list Synapse) (items : list (Z * Synapse))
  : outcome bool :=
  match items with
  | [] => Returns true
  | (idx, val) :: rest =>
      match nth_error segSyns (Z.to_nat idx) with
      | None => Panics IndexOutOfRange
      | Some other =>
          if synapsesDiffer other val then Returns false
          else equalsLoop segSyns rest
      end
  end.

(** [func (s *Segment) Equals(seg *Segment) bool]; [sTp] and [segTp] are
    the pointers [s.tp] and [seg.tp]. *)
Definition Equals (sTp segTp : TpAddr) (s seg : Segment) : outcome bool :=
  let synsEqual := true in
  if negb (len (syns s) =? len (syns seg)) then Returns false
  else
    match equalsLoop (syns seg) (enumerate (syns s)) with
    | Panics p => Panics p
    | Returns false => Returns false
    | Returns true =>
        Returns (synsEqual
                 && (sTp =? segTp)
                 && (segId s =? segId seg)
                 && Bool.eqb (isSequenceSeg s) (isSequenceSeg seg)
                 && (lastActiveIteration s =? lastActiveIteration seg)
                 && (positiveActivations s =? positiveActivations seg)
                 && (totalActivations s =? totalActivations seg)
                 && (lastPosDutyCycle s =? lastPosDutyCycle seg)%float
                 && (lastPosDutyCycleIteration s =? lastPosDutyCycleIteration seg))
    end.

(** The loop of [getConnected], at the positions [idxs]. *)
Fixpoint getConnectedLoop (perm : list float) (SynPermConnected : float)
         (idxs : list Z) (numcon : Z) (connected : list bool)
  : outcome (Z * list bool) :=
  match idxs with
  | [] => Returns (numcon, connected)
  | i :: rest =>
      match nth_error perm (Z.to_nat i) with
      | None => Panics IndexOutOfRange
      | Some p =>
          if (SynPermConnected <=? p)%float
          then getConnectedLoop perm SynPermConnected rest
                                (numcon + 1) (setNth connected (Z.to_nat i) true)
          else getConnectedLoop perm SynPermConnected rest
                                numcon (setNth connected (Z.to_nat i) false)
      end
  end.

(** [func getConnected(perm []float64, sp *SpatialPooler) (int, []bool)]
    of the pooler's test file; of [sp] it reads the field
    [SynPermConnected] only. *)
Definition getConnected (perm : list float) (SynPermConnected : float)
  : outcome (Z * list bool) :=
  getConnectedLoop perm SynPermConnected (upto (len perm)) 0
                   (repeat false (length perm)).

(** The two segments agree on every field, floats compared with [==]. *)
Definition sameFields (sTp segTp : TpAddr) (s seg : Segment) : bool :=
  (sTp =? segTp)
  && (segId s =? segId seg)
  && Bool.eqb (isSequenceSeg s) (isSequenceSeg seg)
  && (lastActiveIteration s =? lastActiveIteration seg)
  && (positiveActivations s =? positiveActivations seg)
  && (totalActivations s =? totalActivations seg)
  && (lastPosDutyCycle s =? lastPosDutyCycle seg)%float
  && (lastPosDutyCycleIteration s =? lastPosDutyCycleIteration seg).

(** Two binary64 values that [==] identifies: both zero (of either sign),
    the same infinity, or the same finite number; never a NaN. *)
Definition sameValue (f1 f2 : spec_float) : Prop :=
  match f1, f2 with
  | S754_zero _, S754_zero _ => True
  | S754_infinity s1, S754_infinity s2 => s1 = s2
  | S754_finite s1 m1 e1, S754_finite s2 m2 e2 => s1 = s2 /\ m1 = m2 /\ e1 = e2
  | _, _ => False
  end.

(** Position by position, the synapses of two collections agree on
    source column, source cell and (under [==]) permanence. *)
Definition allAgree (l1 l2 : list Synapse) : bool :=
  forallb (fun pr => negb (synapsesDiffer (snd pr) (fst pr))) (combine l1 l2).

(** A stand-in for the temporal layer in the examples: the state is the
    list of active columns, every cell of an active column is active, and
    the selection policy hands back the cells [(0,0), (1,0), ...], as many
    as it is asked for. *)
Definition exampleGet (activeColumns : list Z) (col cell : Z) : bool :=
  ContainsInt col activeColumns.

Definition exampleChoose (tp : TemporalPooler) (s : option Segment) (n : Z)
           (activeColumns : list Z) : list SparseEntry :=
  map (fun k => mkSparseEntry k 0) (upto n).

(** * Properties *)

(** ** Duty cycle *)

Section DutyCycle.

Variable Pow : float -> float -> float.

Lemma dutyCycle_first_tier tp active readOnly s :
  lrnIterationIdx tp <= 100 ->
  dutyCycle Pow tp active readOnly s =
    let dc := (float64_of_int (positiveActivations s)
               / float64_of_int (lrnIterationIdx tp))%float in
    (Returns dc,
     if readOnly then s
     else set_lastPosDutyCycle dc
            (set_lastPosDutyCycleIteration (lrnIterationIdx tp) s)).
Proof.
  intros Hle. unfold dutyCycle. change (nth 1 SegmentDutyCycleTiers 0) with 100.
  destruct (Z.leb_spec (lrnIterationIdx tp) 100) as [_ | Hgt]; [| lia].
  destruct readOnly; reflexivity.
Qed.

Lemma dutyCycle_cached tp readOnly s :
  100 < lrnIterationIdx tp ->
  int_sub (lrnIterationIdx tp) (lastPosDutyCycleIteration s) = 0 ->
  dutyCycle Pow tp false readOnly s = (Returns (lastPosDutyCycle s), s).
Proof.
  intros Hgt Hage. unfold dutyCycle. change (nth 1 SegmentDutyCycleTiers 0) with 100.
  destruct (Z.leb_spec (lrnIterationIdx tp) 100) as [Hle | _]; [lia |].
  unfold bind, get. rewrite Hage. reflexivity.
Qed.

Lemma dutyCycle_recomputed tp active readOnly s :
  100 < lrnIterationIdx tp ->
  int_sub (lrnIterationIdx tp) (lastPosDutyCycleIteration s) <> 0 \/ active = true ->
  dutyCycle Pow tp active readOnly s =
    let alpha := selectAlpha (lrnIterationIdx tp) in
    let age := int_sub (lrnIterationIdx tp) (lastPosDutyCycleIteration s) in
    let decayed := (Pow (1 - alpha) (float64_of_int age) * lastPosDutyCycle s)%float in
    let dc := if active then (decayed + alpha)%float else decayed in
    (Returns dc,
     if readOnly then s
     else set_lastPosDutyCycle dc
            (set_lastPosDutyCycleIteration (lrnIterationIdx tp) s)).
Proof.
  intros Hgt Hfresh. unfold dutyCycle. change (nth 1 SegmentDutyCycleTiers 0) with 100.
  destruct (Z.leb_spec (lrnIterationIdx tp) 100) as [Hle | _]; [lia |].
  unfold bind, get.
  assert (Hguard : (int_sub (lrnIterationIdx tp) (lastPosDutyCycleIteration s) =? 0)
                   && negb active = false).
  { destruct Hfresh as [Hage | ->].
    - apply Z.eqb_neq in Hage. rewrite Hage. reflexivity.
    - apply andb_false_r. }
  rewrite Hguard. destruct readOnly; reflexivity.
Qed.

(** The tier loop picks the row of the highest threshold that the
    iteration counter has strictly passed. *)
Lemma selectAlpha_row lrn :
  100 < lrn ->
  exists i : nat,
    (1 <= i <= 8)%nat /\
    nth i SegmentDutyCycleTiers 0 < lrn /\
    (forall j : nat, (i < j <= 8)%nat -> lrn <= nth j SegmentDutyCycleTiers 0) /\
    selectAlpha lrn = nth i SegmentDutyCycleAlphas 0%float.
Proof.
  intros Hgt. unfold selectAlpha. cbn [length SegmentDutyCycleTiers Nat.sub alphaLoop nth].
  repeat match goal with
         | |- context [?a >? ?b] => destruct (Z.gtb_spec a b)
         end;
    [ exists 8%nat | exists 7%nat | exists 6%nat | exists 5%nat
    | exists 4%nat | exists 3%nat | exists 2%nat | exists 1%nat | lia ];
    (split; [lia |]); (split; [cbn; lia |]); (split; [| reflexivity]);
    intros j Hj;
    do 9 (destruct j as [| j]; [cbn; lia |]); lia.
Qed.

End DutyCycle.

(** C5: in the first tier ([1 <= lrnIterationIdx <= 100]) [dutyCycle]
    returns exactly [positiveActivations / lrnIterationIdx], whatever
    [active] and [readOnly] are. *)
Theorem dutyCycle_tier0_is_ratio
        (Pow : float -> float -> float) tp s active readOnly :
  1 <= lrnIterationIdx tp ->
  lrnIterationIdx tp <= 100 ->
  fst (dutyCycle Pow tp active readOnly s) =
    Returns (float64_of_int (positiveActivations s)
             / float64_of_int (lrnIterationIdx tp))%float.
Proof.
  intros _ Hle. rewrite dutyCycle_first_tier by exact Hle. reflexivity.
Qed.

Lemma dutyCycle_tier0_is_ratio_witness :
  fst (dutyCycle PowSpecialCases (exampleTp 48) true false (exampleSegment [])) =
    Returns 0.5%float.
Proof.
  apply (dutyCycle_tier0_is_ratio PowSpecialCases (exampleTp 48)
                                  (exampleSegment []) true false);
    simpl; lia.
Defined.

(** C6: a read-only call of [dutyCycle] leaves the whole segment as it
    was, the two cache fields included, and returns the value the
    updating call returns. *)
Theorem dutyCycle_readOnly_frame
        (Pow : float -> float -> float) tp s active :
  snd (dutyCycle Pow tp active true s) = s /\
  lastPosDutyCycle (snd (dutyCycle Pow tp active true s)) = lastPosDutyCycle s /\
  lastPosDutyCycleIteration (snd (dutyCycle Pow tp active true s))
    = lastPosDutyCycleIteration s /\
  fst (dutyCycle Pow tp active true s) = fst (dutyCycle Pow tp active false s).
Proof.
  assert (Hframe : snd (dutyCycle Pow tp active true s) = s /\
                   fst (dutyCycle Pow tp active true s)
                   = fst (dutyCycle Pow tp active false s)).
  { destruct (Z_le_gt_dec (lrnIterationIdx tp) 100) as [Hle | Hgt].
    - rewrite !dutyCycle_first_tier by exact Hle. split; reflexivity.
    - destruct (Z.eq_dec (int_sub (lrnIterationIdx tp) (lastPosDutyCycleIteration s)) 0)
        as [Hage | Hage].
      + destruct active.
        * rewrite !dutyCycle_recomputed by (auto; lia). split; reflexivity.
        * rewrite !dutyCycle_cached by (auto; lia). split; reflexivity.
      + rewrite !dutyCycle_recomputed by (auto; lia). split; reflexivity. }
  destruct Hframe as [Hs Hv]. rewrite Hs. repeat split; assumption.
Qed.

(** C3, as amended: past the first tier, on a stale cache or an active
    step, [dutyCycle] returns [(1-alpha)^age * lastPosDutyCycle], plus
    [alpha] when active, where [alpha] sits in the row of the largest tier
    threshold strictly below the current iteration. *)
Theorem dutyCycle_moving_average
        (Pow : float -> float -> float) tp s active readOnly :
  100 < lrnIterationIdx tp ->
  int_sub (lrnIterationIdx tp) (lastPosDutyCycleIteration s) <> 0 \/ active = true ->
  exists i : nat,
    (1 <= i <= 8)%nat /\
    nth i SegmentDutyCycleTiers 0 < lrnIterationIdx tp /\
    (forall j : nat, (i < j <= 8)%nat ->
                     lrnIterationIdx tp <= nth j SegmentDutyCycleTiers 0) /\
    fst (dutyCycle Pow tp active readOnly s) =
      Returns
        (let alpha := nth i SegmentDutyCycleAlphas 0%float in
         let age := int_sub (lrnIterationIdx tp) (lastPosDutyCycleIteration s) in
         let decayed :=
           (Pow (1 - alpha) (float64_of_int age) * lastPosDutyCycle s)%float in
         if active then (decayed + alpha)%float else decayed).
Proof.
  intros Hgt Hfresh.
  destruct (selectAlpha_row (lrnIterationIdx tp) Hgt) as (i & Hi & Hbelow & Hmax & Halpha).
  exists i. repeat split; try assumption; try lia.
  rewrite dutyCycle_recomputed by assumption. cbn [fst]. rewrite Halpha. reflexivity.
Qed.

Lemma dutyCycle_moving_average_witness :
  exists i : nat,
    (1 <= i <= 8)%nat /\
    nth i SegmentDutyCycleTiers 0 < 320 /\
    (forall j : nat, (i < j <= 8)%nat -> 320 <= nth j SegmentDutyCycleTiers 0) /\
    fst (dutyCycle PowSpecialCases (exampleTp 320) true false (exampleSegment [])) =
      Returns
        (let alpha := nth i SegmentDutyCycleAlphas 0%float in
         let age := int_sub 320 40 in
         let decayed :=
           (PowSpecialCases (1 - alpha) (float64_of_int age) * 0.5)%float in
         (decayed + alpha)%float).
Proof.
  apply (dutyCycle_moving_average PowSpecialCases (exampleTp 320)
                                  (exampleSegment []) true false).
  - simpl; lia.
  - right; reflexivity.
Defined.

(** C3, as worded, fails on a tier threshold: at iteration 320 the code
    still uses the alpha of the row of 100 (0.0032), while the largest
    threshold [<= 320] is 320 itself, whose alpha is 0.0010. The segment
    was cached at iteration 320 with duty cycle 0 and is active now, so the
    age is 0 and [math.Pow(x, 0) = 1] is all that is used of [Pow]. *)
Lemma dutyCycle_tier_boundary_counterexample :
  100 < lrnIterationIdx (exampleTp 320) /\
  forall Pow : float -> float -> float,
    (forall x, Pow x 0%float = 1%float) ->
    fst (dutyCycle Pow (exampleTp 320) true false segmentCachedAt320)
      = Returns 0.0032%float /\
    movingAverageAsWorded Pow (exampleTp 320) segmentCachedAt320 true = 0.001%float /\
    fst (dutyCycle Pow (exampleTp 320) true false segmentCachedAt320)
      <> Returns (movingAverageAsWorded Pow (exampleTp 320) segmentCachedAt320 true).
Proof.
  split; [cbn; lia |]. intros Pow Hpow.
  assert (Hcode : fst (dutyCycle Pow (exampleTp 320) true false segmentCachedAt320)
                  = Returns 0.0032%float).
  { rewrite dutyCycle_recomputed by (cbn; auto; lia).
    cbn [fst lrnIterationIdx exampleTp lastPosDutyCycleIteration lastPosDutyCycle
         segmentCachedAt320].
    change (float64_of_int (int_sub 320 320)) with 0%float.
    rewrite Hpow. reflexivity. }
  assert (Hworded : movingAverageAsWorded Pow (exampleTp 320) segmentCachedAt320 true
                    = 0.001%float).
  { unfold movingAverageAsWorded.
    cbn [lrnIterationIdx exampleTp lastPosDutyCycleIteration lastPosDutyCycle
         segmentCachedAt320].
    change (float64_of_int (int_sub 320 320)) with 0%float.
    rewrite Hpow. reflexivity. }
  repeat split; [exact Hcode | exact Hworded |].
  rewrite Hcode, Hworded. intros Heq.
  apply (f_equal (fun o => match o with
                           | Returns v => (v =? 0.001)%float
                           | Panics _ => false
                           end)) in Heq.
  vm_compute in Heq. discriminate Heq.
Qed.

(** ** Slices *)

Lemma set_syns_same s : set_syns (syns s) s = s.
Proof. destruct s; reflexivity. Qed.

Lemma setNth_length {A : Type} (l : list A) i v : length (setNth l i v) = length l.
Proof.
  revert i; induction l as [| h t IH]; intros [| i]; simpl; try rewrite IH; reflexivity.
Qed.

Lemma nth_error_at_split {A : Type} (pre : list A) x t :
  nth_error (pre ++ x :: t) (length pre) = Some x.
Proof. induction pre as [| h pre IH]; simpl; [reflexivity | exact IH]. Qed.

Lemma nth_error_past_end {A : Type} (pre : list A) :
  nth_error (pre ++ []) (length pre) = None.
Proof. induction pre as [| h pre IH]; simpl; [reflexivity | exact IH]. Qed.

Lemma setNth_at_split {A : Type} (pre : list A) x t v :
  setNth (pre ++ x :: t) (length pre) v = pre ++ v :: t.
Proof.
  induction pre as [| h pre IH]; simpl; [reflexivity | rewrite IH; reflexivity].
Qed.

Lemma mapFirst_firstn_skipn {A : Type} (f : A -> A) m (l : list A) :
  mapFirst f m l = map f (firstn m l) ++ skipn m l.
Proof.
  revert l; induction m as [| m IH]; intros [| x t]; simpl; try reflexivity.
  rewrite IH; reflexivity.
Qed.

Lemma index_in_range {A : Type} (l : list A) (k : nat) x s :
  nth_error l k = Some x -> index l (Z.of_nat k) s = (Returns x, s).
Proof.
  intros Hk. unfold index.
  destruct (Z.ltb_spec (Z.of_nat k) 0) as [Hneg | _]; [lia |].
  rewrite Nat2Z.id, Hk. reflexivity.
Qed.

Lemma index_out_of_range {A : Type} (l : list A) (k : nat) s :
  nth_error l k = None -> index l (Z.of_nat k) s = (Panics IndexOutOfRange, s).
Proof.
  intros Hk. unfold index.
  destruct (Z.ltb_spec (Z.of_nat k) 0) as [Hneg | _]; [reflexivity |].
  rewrite Nat2Z.id, Hk. reflexivity.
Qed.

(** ** updateSynapses *)

Section UpdateSynapses.

Variable tp : TemporalPooler.
Variable delta : float.

Lemma raiseStep_in_range pre y rest s :
  syns s = pre ++ y :: rest ->
  raiseStep tp delta tt (Z.of_nat (length pre)) s =
    (Returns tt,
     set_syns (pre ++ raised (PermanenceMax (params tp)) delta y :: rest) s).
Proof.
  intros Hs. unfold raiseStep, writePermanence, readSyn, bind, get, modify.
  rewrite (index_in_range _ _ y) by (rewrite Hs; apply nth_error_at_split).
  rewrite (index_in_range _ _ y) by (rewrite Hs; apply nth_error_at_split).
  cbn [syns set_syns]. rewrite Nat2Z.id, Hs, setNth_at_split.
  rewrite (index_in_range _ _ (set_Permanence (Permanence y + delta) y))
    by apply nth_error_at_split.
  cbn [Permanence set_Permanence]. unfold raised.
  destruct (PermanenceMax (params tp) <? Permanence y + delta)%float.
  - rewrite (index_in_range _ _ (set_Permanence (Permanence y + delta) y))
      by apply nth_error_at_split.
    cbn [syns set_syns]. rewrite setNth_at_split. reflexivity.
  - reflexivity.
Qed.

Lemma lowerStep_in_range hitZero pre y rest s :
  syns s = pre ++ y :: rest ->
  lowerStep delta hitZero (Z.of_nat (length pre)) s =
    (Returns (hitsZero delta y || hitZero),
     set_syns (pre ++ lowered delta y :: rest) s).
Proof.
  intros Hs. unfold lowerStep, writePermanence, readSyn, bind, get, modify.
  rewrite (index_in_range _ _ y) by (rewrite Hs; apply nth_error_at_split).
  rewrite (index_in_range _ _ y) by (rewrite Hs; apply nth_error_at_split).
  cbn [syns set_syns]. rewrite Nat2Z.id, Hs, setNth_at_split.
  rewrite (index_in_range _ _ (set_Permanence (Permanence y + delta) y))
    by apply nth_error_at_split.
  cbn [Permanence set_Permanence]. unfold lowered, hitsZero.
  destruct (Permanence y + delta <=? 0)%float.
  - rewrite (index_in_range _ _ (set_Permanence (Permanence y + delta) y))
      by apply nth_error_at_split.
    cbn [syns set_syns]. rewrite setNth_at_split. reflexivity.
  - reflexivity.
Qed.

Lemma raiseStep_out_of_range hitZero pre s :
  syns s = pre ++ [] ->
  raiseStep tp delta hitZero (Z.of_nat (length pre)) s = (Panics IndexOutOfRange, s).
Proof.
  intros Hs. unfold raiseStep, readSyn, bind, get.
  rewrite index_out_of_range by (rewrite Hs; apply nth_error_past_end).
  reflexivity.
Qed.

Lemma lowerStep_out_of_range hitZero pre s :
  syns s = pre ++ [] ->
  lowerStep delta hitZero (Z.of_nat (length pre)) s = (Panics IndexOutOfRange, s).
Proof.
  intros Hs. unfold lowerStep, readSyn, bind, get.
  rewrite index_out_of_range by (rewrite Hs; apply nth_error_past_end).
  reflexivity.
Qed.

(** The raising loop, run over the positions [length pre, length pre + m):
    it rewrites the next [m] synapses in place, and panics past the end
    of the collection with every synapse before that already rewritten. *)
Lemma raise_loop m : forall pre rest s,
  syns s = pre ++ rest ->
  forEach (raiseStep tp delta) tt (map Z.of_nat (seq (length pre) m)) s =
    (if (m <=? length rest)%nat then Returns tt else Panics IndexOutOfRange,
     set_syns (pre ++ mapFirst (raised (PermanenceMax (params tp)) delta) m rest) s).
Proof.
  induction m as [| m IH]; intros pre rest s Hs.
  - cbn. rewrite <- Hs, set_syns_same. reflexivity.
  - cbn [seq map forEach]. unfold bind at 1. destruct rest as [| y rest].
    + rewrite raiseStep_out_of_range by exact Hs.
      cbn. rewrite <- Hs, set_syns_same. reflexivity.
    + rewrite (raiseStep_in_range pre y rest) by exact Hs.
      replace (S (length pre))
        with (length (pre ++ [raised (PermanenceMax (params tp)) delta y]))
        by (rewrite length_app; simpl; lia).
      rewrite (IH _ rest) by (cbn [syns set_syns]; rewrite <- app_assoc; reflexivity).
      cbn [mapFirst length Nat.leb set_syns segId isSequenceSeg lastActiveIteration
           positiveActivations totalActivations lastPosDutyCycle
           lastPosDutyCycleIteration].
      rewrite <- app_assoc. reflexivity.
Qed.

Lemma lower_loop m : forall hitZero pre rest s,
  syns s = pre ++ rest ->
  forEach (lowerStep delta) hitZero (map Z.of_nat (seq (length pre) m)) s =
    (if (m <=? length rest)%nat
     then Returns (existsb (hitsZero delta) (firstn m rest) || hitZero)
     else Panics IndexOutOfRange,
     set_syns (pre ++ mapFirst (lowered delta) m rest) s).
Proof.
  induction m as [| m IH]; intros hitZero pre rest s Hs.
  - cbn. rewrite <- Hs, set_syns_same. reflexivity.
  - cbn [seq map forEach]. unfold bind at 1. destruct rest as [| y rest].
    + rewrite lowerStep_out_of_range by exact Hs.
      cbn. rewrite <- Hs, set_syns_same. reflexivity.
    + rewrite (lowerStep_in_range hitZero pre y rest) by exact Hs.
      replace (S (length pre)) with (length (pre ++ [lowered delta y]))
        by (rewrite length_app; simpl; lia).
      rewrite (IH _ _ rest) by (cbn [syns set_syns]; rewrite <- app_assoc; reflexivity).
      cbn [mapFirst length Nat.leb firstn existsb set_syns segId isSequenceSeg
           lastActiveIteration positiveActivations totalActivations lastPosDutyCycle
           lastPosDutyCycleIteration].
      rewrite <- app_assoc.
      destruct (m <=? length rest)%nat; [| reflexivity].
      rewrite orb_assoc, (orb_comm (existsb _ _)). reflexivity.
Qed.

(** What [updateSynapses] does: it rewrites the first [length synapses]
    synapses of the segment, whatever indices the list holds. *)
Lemma updateSynapses_run synapses s :
  updateSynapses tp synapses delta s =
    let m := length synapses in
    if (0 <? delta)%float then
      (if (m <=? length (syns s))%nat then Returns false else Panics IndexOutOfRange,
       set_syns (mapFirst (raised (PermanenceMax (params tp)) delta) m (syns s)) s)
    else
      (if (m <=? length (syns s))%nat
       then Returns (existsb (hitsZero delta) (firstn m (syns s)))
       else Panics IndexOutOfRange,
       set_syns (mapFirst (lowered delta) m (syns s)) s).
Proof.
  unfold updateSynapses, positions. cbv zeta.
  destruct (0 <? delta)%float.
  - unfold bind. rewrite (raise_loop _ [] (syns s)) by reflexivity.
    destruct (length synapses <=? length (syns s))%nat; reflexivity.
  - rewrite (lower_loop _ false [] (syns s)) by reflexivity.
    rewrite orb_false_r. reflexivity.
Qed.

End UpdateSynapses.

(** C10: with [delta > 0], [updateSynapses] never reports a hit on zero.
    It returns [false] on every call that does not run past the end of the
    synapse collection, and such a call panics instead of returning. *)
Theorem updateSynapses_positive_delta_returns_false tp synapses delta s :
  (0 <? delta)%float = true ->
  fst (updateSynapses tp synapses delta s) <> Returns true /\
  fst (updateSynapses tp synapses delta s) =
    (if (length synapses <=? length (syns s))%nat
     then Returns false else Panics IndexOutOfRange).
Proof.
  intros Hpos. rewrite updateSynapses_run. cbv zeta. rewrite Hpos. cbn [fst].
  split; [| reflexivity].
  destruct (length synapses <=? length (syns s))%nat; discriminate.
Qed.

Lemma updateSynapses_positive_delta_returns_false_witness :
  fst (updateSynapses (exampleTp 1) [0; 1] 0.125 (exampleSegment [0.5; 0.25; 0.75]%float))
    <> Returns true /\
  fst (updateSynapses (exampleTp 1) [0; 1] 0.125 (exampleSegment [0.5; 0.25; 0.75]%float))
    = Returns false.
Proof.
  apply (updateSynapses_positive_delta_returns_false
           (exampleTp 1) [0; 1] 0.125 (exampleSegment [0.5; 0.25; 0.75]%float)).
  reflexivity.
Defined.

(** C2, where the code departs from it: asked to add 0.125 to synapse 2
    of a segment with permanences 0.5, 0.25 and 0.75, [updateSynapses]
    adds it to synapse 0 and leaves synapse 2 alone, because its loops
    range over the positions of the index list and never read the
    indices in it. *)
Theorem updateSynapses_updates_positions_not_indices :
  fst (updateSynapses (exampleTp 1) [2] 0.125 (exampleSegment [0.5; 0.25; 0.75]%float))
    = Returns false /\
  map Permanence
      (syns (snd (updateSynapses (exampleTp 1) [2] 0.125
                                 (exampleSegment [0.5; 0.25; 0.75]%float))))
    = [0.625; 0.25; 0.75]%float.
Proof. split; reflexivity. Qed.

(** ** freeNSynapses *)

Ltac panicked :=
  unfold pureWith; cbn [fst snd]; split; [reflexivity | intros ? Hc; discriminate Hc].

(** A loop whose body leaves the segment alone leaves it alone, and hands
    on whatever its body preserves. *)
Lemma forEach_pure {I L : Type} (P : L -> Prop) (body : L -> I -> M L) s :
  (forall acc i, P acc -> pureWith s P (body acc i s)) ->
  forall idxs acc, P acc -> pureWith s P (forEach body acc idxs s).
Proof.
  intros Hbody. induction idxs as [| i idxs IH]; intros acc Hacc.
  - split; [reflexivity |]. cbn. intros a Ha. injection Ha as <-. exact Hacc.
  - cbn [forEach]. unfold bind.
    destruct (Hbody acc i Hacc) as [Hs Hi].
    destruct (body acc i s) as [[a | p] s']; cbn [fst snd] in *; subst s'.
    + apply IH. apply Hi. reflexivity.
    + panicked.
Qed.

Lemma index_state {A : Type} (l : list A) i s : snd (index l i s) = s.
Proof.
  unfold index. destruct (i <? 0); [reflexivity |].
  destruct (nth_error l (Z.to_nat i)); reflexivity.
Qed.

Lemma index_nil {A : Type} i s : @index A [] i s = (Panics IndexOutOfRange, s).
Proof.
  unfold index. destruct (i <? 0); [reflexivity |].
  destruct (Z.to_nat i); reflexivity.
Qed.

Lemma readSyn_state idx s : snd (readSyn idx s) = s.
Proof. unfold readSyn, bind, get. apply index_state. Qed.

Lemma fillPerms_pure perms s :
  pureWith s (fun perms' => length perms' = length perms) (fillPerms perms s).
Proof.
  unfold fillPerms. apply forEach_pure; [| reflexivity].
  intros acc i Hacc. unfold bind.
  pose proof (readSyn_state i s) as Hs.
  destruct (readSyn i s) as [[y | p] s']; cbn [snd] in Hs; subst s'; [| panicked].
  split; [reflexivity |]. cbn. intros a Ha. injection Ha as <-.
  rewrite setNth_length. exact Hacc.
Qed.

Lemma upto_positive n : 1 <= n -> exists rest, upto n = 0 :: rest.
Proof.
  intros Hn. unfold upto.
  destruct (Z.to_nat n) as [| k] eqn:Hk; [lia |].
  exists (map Z.of_nat (seq 1 k)). reflexivity.
Qed.

Lemma int_sub_in_range a b :
  - 2 ^ 63 <= a - b < 2 ^ 63 -> int_sub a b = a - b.
Proof.
  intros Hr. unfold int_sub, wrap64.
  rewrite Z.mod_small by lia. lia.
Qed.

Lemma keep_all_of_combine {A : Type} (l : list A) : forall ks : list Z,
  length ks = length l ->
  map snd (filter (fun iv => negb (ContainsInt (fst iv) [])) (combine ks l)) = l.
Proof.
  induction l as [| y l IH]; intros [| k ks] Hlen; cbn in *; try reflexivity;
    try discriminate.
  rewrite IH by lia. reflexivity.
Qed.

Lemma length_positions {A : Type} (l : list A) : length (positions l) = length l.
Proof. unfold positions. rewrite length_map, length_seq. reflexivity. Qed.

Lemma survivors_nil (l : list Synapse) : survivors [] l = l.
Proof.
  unfold survivors, enumerate. apply keep_all_of_combine, length_positions.
Qed.

Lemma make_nonnegative {A : Type} (z : A) n s :
  0 <= n -> make z n s = (Returns (repeat z (Z.to_nat n)), s).
Proof.
  intros Hn. unfold make. destruct (Z.ltb_spec n 0); [lia | reflexivity].
Qed.

Section FreeNSynapses.

Variable Argsort : list float -> list Z -> outcome (list float * list Z).

(** Go passes slices by value: a callee overwrites elements, it cannot
    resize the slices its caller holds. *)
Hypothesis Argsort_keeps_lengths : forall dst inds dst' inds',
  Argsort dst inds = Returns (dst', inds') ->
  length dst' = length dst /\ length inds' = length inds.

Variable tp : TemporalPooler.

Lemma Argsort_on_nil_indexes dst dst' inds' :
  Argsort dst [] = Returns (dst', inds') -> inds' = [].
Proof.
  intros Hsort. apply Argsort_keeps_lengths in Hsort as [_ Hlen].
  destruct inds'; [reflexivity | discriminate].
Qed.

(** The first block never changes the segment, and it can only return
    by freeing nothing: its [indexes] are still the nil slice when the
    copy loop reads [indexes[0]]. *)
Lemma inactiveCandidates_run numToFree inactive s :
  inactive <> [] ->
  pureWith s (fun candidates => candidates = [] /\ numToFree = 0)
           (inactiveCandidates Argsort numToFree inactive s).
Proof.
  intros Hne. unfold inactiveCandidates.
  unfold bind at 1. rewrite make_nonnegative by (unfold len; lia).
  cbv beta iota. unfold bind at 1.
  destruct (fillPerms_pure (repeat 0%float (Z.to_nat (len inactive))) s)
    as [Hstate Hlen].
  destruct (fillPerms (repeat 0%float (Z.to_nat (len inactive))) s)
    as [[perms | p] s']; cbn [fst snd] in Hstate, Hlen; subst s';
    cbv beta iota; [| panicked].
  specialize (Hlen perms eq_refl).
  rewrite repeat_length in Hlen. unfold len in Hlen at 1. rewrite Nat2Z.id in Hlen.
  unfold bind at 1, lift.
  destruct (Argsort perms []) as [[dst' inds'] | p] eqn:Hsort; [| panicked].
  apply Argsort_on_nil_indexes in Hsort. subst inds'. cbn [snd].
  assert (Hperms : 1 <= len perms).
  { unfold len. rewrite Hlen. destruct inactive; [congruence | cbn; lia]. }
  unfold Min. destruct (Z.ltb_spec numToFree (len perms)) as [Hlt | Hge].
  - destruct (Z.lt_trichotomy numToFree 0) as [Hneg | [Hzero | Hpos]].
    + unfold bind, make. destruct (Z.ltb_spec numToFree 0); [| lia]. panicked.
    + subst numToFree. split; [reflexivity |]. cbn.
      intros c Hc. injection Hc as <-. split; reflexivity.
    + unfold bind at 1. rewrite make_nonnegative by lia.
      destruct (upto_positive numToFree ltac:(lia)) as [rest ->].
      cbn [forEach]. unfold bind. rewrite index_nil. panicked.
  - unfold bind at 1. rewrite make_nonnegative by lia.
    destruct (upto_positive (len perms) Hperms) as [rest ->].
    cbn [forEach]. unfold bind. rewrite index_nil. panicked.
Qed.

(** The second block panics as soon as it has one index to take, again
    at [indexes[0]] if not already inside [Argsort]. *)
Lemma activeCandidates_run numToFree inactive candidates s :
  1 <= int_sub numToFree (len candidates) ->
  exists p, activeCandidates Argsort numToFree inactive candidates s = (Panics p, s).
Proof.
  intros Hmore. unfold activeCandidates.
  unfold bind at 1, get.
  unfold bind at 1. rewrite make_nonnegative by (unfold len; lia).
  cbv beta iota. unfold bind at 1.
  match goal with
  | |- context [fillPerms ?ps s] =>
      destruct (fillPerms_pure ps s) as [Hstate _];
      destruct (fillPerms ps s) as [[perms | p] s'];
      cbn [snd] in Hstate; subst s'; [| exists p; reflexivity]
  end.
  unfold bind at 1, lift.
  destruct (Argsort perms []) as [[dst' inds'] | p] eqn:Hsort;
    [| exists p; reflexivity].
  apply Argsort_on_nil_indexes in Hsort. subst inds'. cbn [snd].
  destruct (upto_positive _ Hmore) as [rest ->].
  cbn [forEach]. unfold bind. rewrite index_nil.
  exists IndexOutOfRange. reflexivity.
Qed.

(** The guard at the head of [freeNSynapses]. *)
Lemma freeNSynapses_too_many numToFree inactive s :
  len (syns s) < numToFree ->
  freeNSynapses Argsort tp numToFree inactive s =
    (Panics (Explicit "Number to free cannot be larger than existing synapses."), s).
Proof.
  intros Hgt. unfold freeNSynapses, bind, get.
  destruct (Z.gtb_spec numToFree (len (syns s))); [reflexivity | lia].
Qed.

(** With a positive [numToFree] the call never returns, and the
    segment is as it was when the panic leaves it. *)
Lemma freeNSynapses_positive_panics numToFree inactive s :
  1 <= numToFree < 2 ^ 63 ->
  exists p, freeNSynapses Argsort tp numToFree inactive s = (Panics p, s).
Proof.
  intros Hn. unfold freeNSynapses. unfold bind at 1, get.
  destruct (Z.gtb_spec numToFree (len (syns s))) as [Hgt | Hle].
  { eexists; reflexivity. }
  unfold bind at 1.
  destruct (Z.gtb_spec (len inactive) 0) as [Hsome | Hnone].
  - assert (Hne : inactive <> []) by (intros ->; cbn in Hsome; lia).
    destruct (inactiveCandidates_run numToFree inactive s Hne) as [Hstate Hret].
    destruct (inactiveCandidates Argsort numToFree inactive s) as [[c | p] s'];
      cbn [fst snd] in *; subst s'.
    + destruct (Hret c eq_refl) as [_ Hzero]. lia.
    + exists p; reflexivity.
  - cbn [ret]. change (len (@nil Z)) with 0.
    destruct (Z.ltb_spec 0 numToFree); [| lia].
    destruct (activeCandidates_run numToFree inactive [] s) as [p Hp].
    { rewrite int_sub_in_range; cbn; lia. }
    unfold bind at 1. rewrite Hp. exists p; reflexivity.
Qed.

(** Whatever it is asked, [freeNSynapses] leaves the segment as it
    found it: it returns only when [numToFree <= 0], with nothing to
    delete. *)
Lemma freeNSynapses_frees_nothing numToFree inactive s :
  numToFree < 2 ^ 63 ->
  pureWith s (fun _ => numToFree <= 0)
           (freeNSynapses Argsort tp numToFree inactive s).
Proof.
  intros Hrange.
  destruct (Z_le_gt_dec numToFree 0) as [Hle | Hpos].
  2:{ destruct (freeNSynapses_positive_panics numToFree inactive s ltac:(lia))
        as [p ->].
      panicked. }
  split; [| intros _ _; exact Hle].
  unfold freeNSynapses. unfold bind at 1, get.
  destruct (Z.gtb_spec numToFree (len (syns s))) as [Hgt | _]; [reflexivity |].
  unfold bind at 1.
  match goal with
  | |- context [if ?guard then inactiveCandidates _ _ _ else ret []] =>
      assert (Hfirst : pureWith s (fun found => found = [])
                         ((if guard then inactiveCandidates Argsort numToFree inactive
                           else ret []) s))
  end.
  { destruct (Z.gtb_spec (len inactive) 0) as [Hsome | Hnone].
    - destruct (inactiveCandidates_run numToFree inactive s) as [Hs Hc].
      { intros ->; cbn in Hsome; lia. }
      split; [exact Hs |]. intros c Hret. apply (Hc c Hret).
    - split; [reflexivity |]. cbn. intros c Hc. injection Hc as <-. reflexivity. }
  destruct Hfirst as [Hs Hc].
  match goal with
  | |- context [match ?r with (_, _) => _ end] =>
      destruct r as [[c | p] s']
  end; cbn [fst snd] in Hs, Hc; subst s'; [| reflexivity].
  rewrite (Hc c eq_refl). change (len (@nil Z)) with 0.
  destruct (Z.ltb_spec 0 numToFree); [lia |].
  cbn. rewrite survivors_nil. apply set_syns_same.
Qed.

End FreeNSynapses.

Lemma insertByPerm_length x l : length (insertByPerm x l) = S (length l).
Proof.
  induction l as [| y l IH]; cbn; [reflexivity |].
  destruct (fst y <? fst x)%float; cbn; [rewrite IH |]; reflexivity.
Qed.

Lemma sortByPerm_length l : length (sortByPerm l) = length l.
Proof.
  unfold sortByPerm. induction l as [| x l IH]; cbn [fold_right]; [reflexivity |].
  rewrite insertByPerm_length, IH. reflexivity.
Qed.

(** gonum's [Argsort] is such a callee. *)
Lemma gonum_Argsort_keeps_lengths dst inds dst' inds' :
  gonum_Argsort dst inds = Returns (dst', inds') ->
  length dst' = length dst /\ length inds' = length inds.
Proof.
  unfold gonum_Argsort.
  destruct (Nat.eqb_spec (length dst) (length inds)) as [Heq | _]; [| discriminate].
  intros Hret. injection Hret as <- <-.
  rewrite !length_map, sortByPerm_length, length_combine, length_positions.
  lia.
Qed.

(** C4, where the code departs from it: asked to free one synapse of a
    segment that has two, with no synapse listed as inactive,
    [freeNSynapses] panics and the segment keeps both synapses; the claim
    has it remove exactly one. [indexes] is still nil when it is handed to
    [Argsort] and when [indexes[0]] is read. *)
Theorem freeNSynapses_one_of_two_panics :
  exists p,
    freeNSynapses gonum_Argsort (exampleTp 1) 1 [] (exampleSegment [0.5; 0.25]%float)
    = (Panics p, exampleSegment [0.5; 0.25]%float).
Proof. eexists. vm_compute. reflexivity. Qed.

(** C1, where the code departs from it: asked to free one synapse, with
    synapse 2 (the lowest permanence) listed as the only inactive one,
    [freeNSynapses] panics and frees nothing; the claim has it free
    synapse 2. *)
Theorem freeNSynapses_inactive_lowest_not_freed :
  exists p,
    freeNSynapses gonum_Argsort (exampleTp 1) 1 [2]
                  (exampleSegment [0.5; 0.25; 0.125]%float)
    = (Panics p, exampleSegment [0.5; 0.25; 0.125]%float).
Proof. eexists. vm_compute. reflexivity. Qed.

(** ** getSegmentActiveSynapses *)

Lemma In_enumerate_from {A : Type} (l : list A) : forall (k : nat) idx y,
  In (idx, y) (combine (map Z.of_nat (seq k (length l))) l) <->
  exists j : nat, idx = Z.of_nat (k + j) /\ nth_error l j = Some y.
Proof.
  induction l as [| x l IH]; intros k idx y; cbn [length seq map combine In].
  - split; [intros [] | intros (j & _ & Hj)]. destruct j; discriminate.
  - rewrite IH. split.
    + intros [Hhead | (j & -> & Hj)].
      * injection Hhead as <- <-. exists O. split; [f_equal; lia | reflexivity].
      * exists (S j). split; [f_equal; lia | exact Hj].
    + intros ([| j] & -> & Hj).
      * left. cbn in Hj. injection Hj as <-. repeat f_equal. lia.
      * right. exists j. split; [f_equal; lia | exact Hj].
Qed.

Lemma In_enumerate {A : Type} (l : list A) idx y :
  In (idx, y) (enumerate l) <->
  0 <= idx /\ nth_error l (Z.to_nat idx) = Some y.
Proof.
  unfold enumerate, positions. rewrite In_enumerate_from. split.
  - intros (j & -> & Hj). cbn [Nat.add]. rewrite Nat2Z.id. split; [lia | exact Hj].
  - intros [Hpos Hy]. exists (Z.to_nat idx). split; [cbn [Nat.add]; lia | exact Hy].
Qed.

Lemma NoDup_fst_combine {A : Type} (ks : list Z) : forall l : list A,
  NoDup ks -> NoDup (map fst (combine ks l)).
Proof.
  induction ks as [| k ks IH]; intros [| y l] Hnd; cbn; try constructor.
  - intros Hin. apply in_map_iff in Hin as ([k' y'] & Hk & Hin). cbn in Hk. subst k'.
    apply in_combine_l in Hin. inversion Hnd; contradiction.
  - apply IH. inversion Hnd; assumption.
Qed.

Lemma NoDup_fst_filter {A : Type} (f : Z * A -> bool) (items : list (Z * A)) :
  NoDup (map fst items) -> NoDup (map fst (filter f items)).
Proof.
  induction items as [| a items IH]; cbn; intros Hnd; [constructor |].
  inversion Hnd as [| ? ? Hnotin Hrest]; subst.
  destruct (f a); cbn; [constructor |]; auto.
  intros Hin. apply Hnotin.
  apply in_map_iff in Hin as (b & Hb & Hin). apply filter_In in Hin as [Hin _].
  apply in_map_iff. exists b. split; assumption.
Qed.

Lemma NoDup_positions {A : Type} (l : list A) : NoDup (positions l).
Proof.
  unfold positions. apply Injective_map_NoDup; [| apply seq_NoDup].
  intros a b Hab. lia.
Qed.

Section SegmentActiveSynapses.

Variable SparseBinaryMatrix : Type.
Variable Get : SparseBinaryMatrix -> Z -> Z -> bool.
Variable chooseCellsToLearnFrom :
  TemporalPooler -> option Segment -> Z -> SparseBinaryMatrix -> list SparseEntry.

Lemma collectActive_closed_form activeState items : forall acc,
  collectActive Get activeState acc items =
    acc ++ map (fun iv => mkSynapseUpdateState false (fst iv) 0)
               (filter (fun iv => sourceActive Get activeState (snd iv)) items).
Proof.
  induction items as [| [idx val] items IH]; intros acc; cbn [collectActive filter snd].
  - rewrite app_nil_r. reflexivity.
  - unfold sourceActive at 1.
    destruct (Get activeState (SrcCellCol val) (SrcCellIdx val)); rewrite IH.
    + rewrite <- app_assoc. reflexivity.
    + reflexivity.
Qed.

Lemma baseActiveSynapses_indices seg activeState :
  map Index (baseActiveSynapses Get (Some seg) activeState) =
    map fst (filter (fun iv => sourceActive Get activeState (snd iv))
                    (enumerate (syns seg))).
Proof.
  unfold baseActiveSynapses. rewrite collectActive_closed_form. cbn [app].
  rewrite map_map. reflexivity.
Qed.

Lemma appended_new_synapses (newSyns : list SparseEntry) : forall acc,
  fold_left (fun acc val => acc ++ [mkSynapseUpdateState true (Row val) (Col val)])
            newSyns acc
  = acc ++ map (fun val => mkSynapseUpdateState true (Row val) (Col val)) newSyns.
Proof.
  induction newSyns as [| e newSyns IH]; intros acc; cbn.
  - rewrite app_nil_r. reflexivity.
  - rewrite IH, <- app_assoc. reflexivity.
Qed.

(** C7: a nil segment is accepted and gives an empty base list; for a
    segment, the base list holds, once each and in stored order, exactly
    the positions of the synapses whose source cell is active, none of
    them marked new; the growth candidates come after the base list; and
    the segment is the same after the call as before. *)
Theorem getSegmentActiveSynapses_base_list tp c i s activeState newSynapses :
  let r := getSegmentActiveSynapses Get chooseCellsToLearnFrom
                                    tp c i s activeState newSynapses in
  let base := baseActiveSynapses Get s activeState in
  snd r = s /\
  segment (fst r) = s /\ columnIdx (fst r) = c /\ cellIdx (fst r) = i /\
  activeSynapses (fst r) =
    base ++ (if newSynapses
             then map (fun val => mkSynapseUpdateState true (Row val) (Col val))
                      (chooseCellsToLearnFrom
                         tp s (int_sub (NewSynapseCount (params tp)) (len base))
                         activeState)
             else []) /\
  baseActiveSynapses Get None activeState = [] /\
  (forall seg idx,
      In idx (map Index (baseActiveSynapses Get (Some seg) activeState)) <->
      exists y, 0 <= idx /\ nth_error (syns seg) (Z.to_nat idx) = Some y /\
                Get activeState (SrcCellCol y) (SrcCellIdx y) = true) /\
  (forall seg,
      NoDup (map Index (baseActiveSynapses Get (Some seg) activeState)) /\
      map Index (baseActiveSynapses Get (Some seg) activeState) =
        map fst (filter (fun iv => Get activeState (SrcCellCol (snd iv))
                                       (SrcCellIdx (snd iv)))
                        (enumerate (syns seg))) /\
      Forall (fun u => New u = false /\ CellIndex u = 0)
             (baseActiveSynapses Get (Some seg) activeState)).
Proof.
  cbv zeta. unfold getSegmentActiveSynapses. cbn [fst snd segment columnIdx cellIdx
                                                  activeSynapses].
  repeat split; try reflexivity.
  - destruct newSynapses; [apply appended_new_synapses | rewrite app_nil_r; reflexivity].
  - rewrite baseActiveSynapses_indices. intros Hin.
    apply in_map_iff in Hin as ([idx' y] & Hidx & Hin). cbn in Hidx. subst idx'.
    apply filter_In in Hin as [Hin Hact]. apply In_enumerate in Hin as [Hpos Hy].
    exists y. repeat split; assumption.
  - rewrite baseActiveSynapses_indices. intros (y & Hpos & Hy & Hact).
    apply in_map_iff. exists (idx, y). split; [reflexivity |].
    apply filter_In. split; [apply In_enumerate; split; assumption | exact Hact].
  - rewrite baseActiveSynapses_indices.
    apply NoDup_fst_filter. unfold enumerate.
    apply NoDup_fst_combine, NoDup_positions.
  - apply baseActiveSynapses_indices.
  - unfold baseActiveSynapses. rewrite collectActive_closed_form. cbn [app].
    apply Forall_forall. intros u Hu. apply in_map_iff in Hu as (iv & <- & _).
    split; reflexivity.
Qed.

End SegmentActiveSynapses.

(** ** ToString *)

Lemma append_assoc (a b c : string) : ((a ++ b) ++ c = a ++ (b ++ c))%string.
Proof. induction a as [| ch a IH]; cbn; [reflexivity | rewrite IH; reflexivity]. Qed.

Lemma appended_synapses (f : Synapse -> string) (l : list Synapse) : forall init,
  fold_left (fun result syn => (result ++ f syn)%string) l init
  = (init ++ joinAll (map f l))%string.
Proof.
  induction l as [| y l IH]; intros init; cbn.
  - induction init as [| ch init IHi]; cbn; [reflexivity | rewrite <- IHi; reflexivity].
  - rewrite IH, append_assoc. reflexivity.
Qed.

(** The read-only duty cycle always has a value and never panics. *)
Lemma dutyCycle_readOnly_returns (Pow : float -> float -> float) tp active s :
  exists dc, dutyCycle Pow tp active true s = (Returns dc, s).
Proof.
  destruct (Z_le_gt_dec (lrnIterationIdx tp) 100) as [Hle | Hgt].
  - rewrite dutyCycle_first_tier by exact Hle. eexists; reflexivity.
  - destruct (Z.eq_dec (int_sub (lrnIterationIdx tp) (lastPosDutyCycleIteration s)) 0)
      as [Hage | Hage]; [destruct active |].
    + rewrite dutyCycle_recomputed by (auto; lia). eexists; reflexivity.
    + rewrite dutyCycle_cached by (auto; lia). eexists; reflexivity.
    + rewrite dutyCycle_recomputed by (auto; lia). eexists; reflexivity.
Qed.

(** C8: [ToString] returns the line
    [ID:<id> <isSequenceSeg> <dutyCycle> (<positive>/<total>) <age>],
    then [ [<col>,<cell>]<perm>] for every synapse in stored order, then a
    newline; the duty cycle is the read-only one for an inactive step, the
    age is [lrnIterationIdx - lastActiveIteration], and the segment is not
    changed. *)
Theorem ToString_debug_line (Pow : float -> float -> float)
        (fmtFloat : float -> string) tp s :
  exists dc,
    dutyCycle Pow tp false true s = (Returns dc, s) /\
    ToString Pow fmtFloat tp s =
      (Returns ("ID:" ++ fmtInt (segId s) ++ " " ++ fmtBool (isSequenceSeg s) ++ " "
                ++ fmtFloat dc
                ++ " (" ++ fmtInt (positiveActivations s) ++ "/"
                ++ fmtInt (totalActivations s) ++ ") "
                ++ fmtInt (int_sub (lrnIterationIdx tp) (lastActiveIteration s))
                ++ joinAll (map (synapseText fmtFloat) (syns s))
                ++ newline)%string,
       s).
Proof.
  destruct (dutyCycle_readOnly_returns Pow tp false s) as [dc Hdc].
  exists dc. split; [exact Hdc |].
  unfold ToString, bind, get. rewrite Hdc.
  unfold ret. f_equal. f_equal.
  rewrite (appended_synapses (synapseText fmtFloat)).
  repeat rewrite append_assoc. reflexivity.
Qed.

(** ** NewSegment *)

(** C9: a new segment starts with one positive and one total activation,
    was last active at the pooler's current iteration, and caches the
    duty cycle [1 / lrnIterationIdx] computed at that iteration. Nothing
    guards the division: at iteration 0 the cached duty cycle is [+Inf],
    so a finite one needs [lrnIterationIdx >= 1] (the counter is never
    negative). *)
Theorem NewSegment_initial_state
        (GetSegId : TemporalPooler -> Z * TemporalPooler) tp isSequenceSeg :
  let seg := fst (NewSegment GetSegId tp isSequenceSeg) in
  let tp' := snd (NewSegment GetSegId tp isSequenceSeg) in
  tp' = snd (GetSegId tp) /\
  segId seg = fst (GetSegId tp) /\
  positiveActivations seg = 1 /\
  totalActivations seg = 1 /\
  lastActiveIteration seg = lrnIterationIdx tp' /\
  lastPosDutyCycle seg = (1 / float64_of_int (lrnIterationIdx tp'))%float /\
  lastPosDutyCycleIteration seg = lrnIterationIdx tp' /\
  syns seg = [] /\
  (lrnIterationIdx tp' = 0 -> lastPosDutyCycle seg = infinity) /\
  (0 <= lrnIterationIdx tp' ->
   is_finite (lastPosDutyCycle seg) = true -> 1 <= lrnIterationIdx tp').
Proof.
  cbv zeta. unfold NewSegment. destruct (GetSegId tp) as [id tp']. cbn.
  repeat split.
  - intros ->. reflexivity.
  - intros Hnonneg Hfinite.
    destruct (Z.eq_dec (lrnIterationIdx tp') 0) as [Hzero | Hnz]; [| lia].
    rewrite Hzero in Hfinite. vm_compute in Hfinite. discriminate Hfinite.
Qed.

Lemma NewSegment_initial_state_witness :
  lastPosDutyCycle (fst (NewSegment exampleGetSegId (exampleTp 0) true)) = infinity.
Proof.
  apply (NewSegment_initial_state exampleGetSegId (exampleTp 0) true).
  reflexivity.
Defined.

(** ** Further properties of the operations *)

(** The line of the source's own comment, as Go prints it at iteration 48
    for a segment last active at iteration 40. *)
Example ToString_of_example :
  fst (ToString PowSpecialCases fmtFloatOfExample (exampleTp 48)
                (exampleSegment [0.75; 0.75; 0.75]%float))
  = Returns ("ID:54413 true 0.5 (24/36) 8 [9,1]0.75 [10,1]0.75 [11,1]0.75"
             ++ newline)%string.
Proof. reflexivity. Qed.

(** X1, the guard of [freeNSynapses]: asked for more synapses than the segment
    has, it panics with its own message before it touches the segment. *)
Theorem freeNSynapses_guard
        (Argsort : list float -> list Z -> outcome (list float * list Z))
        tp numToFree inactiveSynapseIndices s :
  len (syns s) < numToFree ->
  freeNSynapses Argsort tp numToFree inactiveSynapseIndices s =
    (Panics (Explicit "Number to free cannot be larger than existing synapses."), s).
Proof. apply freeNSynapses_too_many. Qed.

Lemma freeNSynapses_guard_witness :
  freeNSynapses gonum_Argsort (exampleTp 1) 3 [0] (exampleSegment [0.5; 0.25]%float) =
    (Panics (Explicit "Number to free cannot be larger than existing synapses."),
     exampleSegment [0.5; 0.25]%float).
Proof.
  apply (freeNSynapses_guard gonum_Argsort (exampleTp 1) 3 [0]
                             (exampleSegment [0.5; 0.25]%float)).
  reflexivity.
Defined.

(** X2: [freeNSynapses] never removes a synapse. For any [Argsort] that, like
    every Go callee, leaves the lengths of its caller's slices alone, the
    segment after the call is the segment before it; the call panics for
    every [numToFree >= 1] and can return only for [numToFree <= 0]. *)
Theorem freeNSynapses_never_frees
        (Argsort : list float -> list Z -> outcome (list float * list Z))
        tp numToFree inactiveSynapseIndices s :
  (forall dst inds dst' inds',
      Argsort dst inds = Returns (dst', inds') ->
      length dst' = length dst /\ length inds' = length inds) ->
  numToFree < 2 ^ 63 ->
  snd (freeNSynapses Argsort tp numToFree inactiveSynapseIndices s) = s /\
  (fst (freeNSynapses Argsort tp numToFree inactiveSynapseIndices s) = Returns tt ->
   numToFree <= 0) /\
  (1 <= numToFree ->
   exists p, fst (freeNSynapses Argsort tp numToFree inactiveSynapseIndices s) = Panics p).
Proof.
  intros Hlen Hrange.
  destruct (freeNSynapses_frees_nothing Argsort Hlen tp numToFree
                                        inactiveSynapseIndices s Hrange)
    as [Hstate Hret].
  repeat split; [exact Hstate | exact (Hret tt) |].
  intros Hpos.
  destruct (freeNSynapses_positive_panics Argsort Hlen tp numToFree
                                          inactiveSynapseIndices s)
    as [p Hp]; [lia |].
  exists p. rewrite Hp. reflexivity.
Qed.

Lemma freeNSynapses_never_frees_witness :
  snd (freeNSynapses gonum_Argsort (exampleTp 1) 2 [1; 2]
                     (exampleSegment [0.5; 0.25; 0.125]%float))
  = exampleSegment [0.5; 0.25; 0.125]%float.
Proof.
  apply (freeNSynapses_never_frees gonum_Argsort (exampleTp 1) 2 [1; 2]
                                   (exampleSegment [0.5; 0.25; 0.125]%float)).
  - apply gonum_Argsort_keeps_lengths.
  - reflexivity.
Defined.

(** X3, what [updateSynapses] does with a list that fits the segment: it adds
    [delta], with the clamp of its branch, to the synapses at positions
    [0 .. len(synapses)-1] and to no other, whatever indices the list
    names; on the lowering branch it returns whether one of those hit 0. *)
Theorem updateSynapses_rewrites_leading_synapses tp synapses delta s :
  (length synapses <= length (syns s))%nat ->
  let m := length synapses in
  let change := if (0 <? delta)%float
                then raised (PermanenceMax (params tp)) delta
                else lowered delta in
  snd (updateSynapses tp synapses delta s)
    = set_syns (map change (firstn m (syns s)) ++ skipn m (syns s)) s /\
  fst (updateSynapses tp synapses delta s)
    = Returns (if (0 <? delta)%float then false
               else existsb (hitsZero delta) (firstn m (syns s))).
Proof.
  intros Hfits. cbv zeta. rewrite updateSynapses_run. cbv zeta.
  apply Nat.leb_le in Hfits. rewrite Hfits.
  destruct (0 <? delta)%float; cbn [fst snd];
    rewrite mapFirst_firstn_skipn; split; reflexivity.
Qed.

Lemma updateSynapses_rewrites_leading_synapses_witness :
  snd (updateSynapses (exampleTp 1) [2; 1] (-0.25) (exampleSegment [0.5; 0.25; 0.75]%float))
    = exampleSegment [0.25; 0; 0.75]%float /\
  fst (updateSynapses (exampleTp 1) [2; 1] (-0.25) (exampleSegment [0.5; 0.25; 0.75]%float))
    = Returns true.
Proof.
  apply (updateSynapses_rewrites_leading_synapses
           (exampleTp 1) [2; 1] (-0.25)%float
           (exampleSegment [0.5; 0.25; 0.75]%float)).
  simpl; lia.
Defined.

(** ** Comparisons of binary64 values *)

Lemma SFcompare_Eq_iff f1 f2 : SFcompare f1 f2 = Some Eq <-> sameValue f1 f2.
Proof.
  destruct f1 as [s1 | s1 | | s1 m1 e1], f2 as [s2 | s2 | | s2 m2 e2]; cbn;
    try (split; [discriminate | contradiction]);
    try (split; [reflexivity | trivial]);
    try (destruct s1; split; (discriminate || contradiction));
    try (destruct s2; split; (discriminate || contradiction)).
  - destruct s1, s2; split; (reflexivity || discriminate).
  - change (Pos.compare_cont Eq m1 m2) with (Pos.compare m1 m2).
    destruct s1, s2; try (split; [discriminate | intros (Hs & _); discriminate Hs]);
      destruct (Z.compare_spec e1 e2) as [He | He | He];
      try (split; [discriminate | intros (_ & _ & He'); lia]);
      destruct (Pos.compare_spec m1 m2) as [Hm | Hm | Hm]; cbn;
      try (split; [discriminate | intros (_ & Hm' & _); lia]);
      subst; split; auto.
Qed.

Lemma sameValue_sym f1 f2 : sameValue f1 f2 -> sameValue f2 f1.
Proof.
  destruct f1, f2; cbn; try tauto; try congruence.
  intros (-> & -> & ->). auto.
Qed.

Lemma sameValue_trans f1 f2 f3 : sameValue f1 f2 -> sameValue f2 f3 -> sameValue f1 f3.
Proof.
  destruct f1, f2, f3; cbn; try tauto; try congruence.
  intros (-> & -> & ->) (-> & -> & ->). auto.
Qed.

Lemma feqb_true_iff (x y : float) :
  (x =? y)%float = true <-> sameValue (Prim2SF x) (Prim2SF y).
Proof.
  rewrite FloatAxioms.eqb_spec, <- SFcompare_Eq_iff. unfold SFeqb.
  destruct (SFcompare (Prim2SF x) (Prim2SF y)) as [[| |] |];
    split; (reflexivity || discriminate).
Qed.

Lemma feqb_sym (x y : float) : (x =? y)%float = (y =? x)%float.
Proof.
  apply Bool.eq_true_iff_eq. rewrite !feqb_true_iff.
  split; apply sameValue_sym.
Qed.

Lemma feqb_trans (x y z : float) :
  (x =? y)%float = true -> (y =? z)%float = true -> (x =? z)%float = true.
Proof. rewrite !feqb_true_iff. apply sameValue_trans. Qed.

Lemma SFcompare_same f : SFcompare f f = Some Eq \/ SFcompare f f = None.
Proof.
  destruct f as [s | s | | s m e]; [left | left | right; reflexivity | left];
    apply SFcompare_Eq_iff; cbn; auto.
Qed.

Lemma fltb_irrefl (x : float) : (x <? x)%float = false.
Proof.
  rewrite FloatAxioms.ltb_spec. unfold SFltb.
  destruct (SFcompare_same (Prim2SF x)) as [-> | ->]; reflexivity.
Qed.

Lemma fltb_fleb (x y : float) : (x <? y)%float = true -> (x <=? y)%float = true.
Proof.
  rewrite FloatAxioms.ltb_spec, FloatAxioms.leb_spec. unfold SFltb, SFleb.
  destruct (SFcompare (Prim2SF x) (Prim2SF y)) as [[| |] |];
    (reflexivity || discriminate).
Qed.

(** ** Equals *)

Lemma synapsesDiffer_sym y1 y2 : synapsesDiffer y1 y2 = synapsesDiffer y2 y1.
Proof.
  unfold synapsesDiffer.
  rewrite (feqb_sym (Permanence y1)), (Z.eqb_sym (SrcCellCol y1)),
    (Z.eqb_sym (SrcCellIdx y1)).
  reflexivity.
Qed.

Lemma synapsesDiffer_false_iff y1 y2 :
  synapsesDiffer y1 y2 = false <->
  (Permanence y1 =? Permanence y2)%float = true /\
  SrcCellCol y1 = SrcCellCol y2 /\ SrcCellIdx y1 = SrcCellIdx y2.
Proof.
  unfold synapsesDiffer. rewrite !orb_false_iff, !negb_false_iff, !Z.eqb_eq. tauto.
Qed.

Lemma equalsLoop_lockstep (l : list Synapse) : forall (pre rest : list Synapse),
  length rest = length l ->
  equalsLoop (pre ++ rest) (combine (map Z.of_nat (seq (length pre) (length l))) l)
  = Returns (allAgree l rest).
Proof.
  unfold allAgree.
  induction l as [| val l IH]; intros pre [| other rest] Hlen; try discriminate.
  - reflexivity.
  - cbn [length seq map combine equalsLoop forallb fst snd].
    rewrite Nat2Z.id, nth_error_at_split.
    destruct (synapsesDiffer other val); [reflexivity |]. cbn [negb andb].
    replace (S (length pre)) with (length (pre ++ [other]))
      by (rewrite length_app; cbn; lia).
    replace (pre ++ other :: rest) with ((pre ++ [other]) ++ rest)
      by (rewrite <- app_assoc; reflexivity).
    apply IH. cbn in Hlen. lia.
Qed.

(** [Equals] never panics: its answer is the conjunction of the three
    tests it makes. *)
Lemma Equals_run sTp segTp s seg :
  Equals sTp segTp s seg =
    Returns ((length (syns s) =? length (syns seg))%nat
             && allAgree (syns s) (syns seg)
             && sameFields sTp segTp s seg).
Proof.
  unfold Equals, len.
  destruct (Nat.eqb_spec (length (syns s)) (length (syns seg))) as [Hlen | Hlen].
  - replace (Z.of_nat (length (syns s)) =? Z.of_nat (length (syns seg))) with true
      by (symmetry; apply Z.eqb_eq; lia).
    cbn [negb]. unfold enumerate, positions.
    pose proof (equalsLoop_lockstep (syns s) [] (syns seg) (eq_sym Hlen)) as Hloop.
    cbn [app length] in Hloop. rewrite Hloop.
    destruct (allAgree (syns s) (syns seg)); reflexivity.
  - replace (Z.of_nat (length (syns s)) =? Z.of_nat (length (syns seg))) with false
      by (symmetry; apply Z.eqb_neq; lia).
    reflexivity.
Qed.

Lemma allAgree_sym (l1 : list Synapse) : forall l2, allAgree l1 l2 = allAgree l2 l1.
Proof.
  unfold allAgree.
  induction l1 as [| y1 l1 IH]; intros [| y2 l2]; cbn; try reflexivity.
  rewrite IH, synapsesDiffer_sym. reflexivity.
Qed.

Lemma allAgree_trans (l1 : list Synapse) : forall l2 l3,
  length l1 = length l2 ->
  allAgree l1 l2 = true -> allAgree l2 l3 = true -> allAgree l1 l3 = true.
Proof.
  unfold allAgree.
  induction l1 as [| y1 l1 IH]; intros [| y2 l2] [| y3 l3] Hlen; cbn;
    try reflexivity; try discriminate.
  rewrite !andb_true_iff, !negb_true_iff.
  intros [H12 Hrest12] [H23 Hrest23]. split.
  - apply synapsesDiffer_false_iff in H12 as (Hp12 & Hc12 & Hi12).
    apply synapsesDiffer_false_iff in H23 as (Hp23 & Hc23 & Hi23).
    apply synapsesDiffer_false_iff. repeat split; try congruence.
    rewrite feqb_sym. rewrite feqb_sym in Hp12, Hp23.
    exact (feqb_trans _ _ _ Hp12 Hp23).
  - apply (IH l2 l3); [cbn in Hlen; lia | assumption | assumption].
Qed.

Lemma allAgree_same (l : list Synapse) :
  allAgree l l = forallb (fun y => negb (is_nan (Permanence y))) l.
Proof.
  unfold allAgree. induction l as [| y l IH]; cbn; [reflexivity |].
  rewrite IH. unfold synapsesDiffer, is_nan. rewrite !Z.eqb_refl. cbn.
  rewrite !orb_false_r. reflexivity.
Qed.

Lemma sameFields_sym sTp segTp s seg :
  sameFields sTp segTp s seg = sameFields segTp sTp seg s.
Proof.
  unfold sameFields.
  rewrite (Z.eqb_sym sTp), (Z.eqb_sym (segId s)), (Z.eqb_sym (lastActiveIteration s)),
    (Z.eqb_sym (positiveActivations s)), (Z.eqb_sym (totalActivations s)),
    (Z.eqb_sym (lastPosDutyCycleIteration s)), (feqb_sym (lastPosDutyCycle s)).
  destruct (isSequenceSeg s), (isSequenceSeg seg); reflexivity.
Qed.

Lemma sameFields_trans a b c s1 s2 s3 :
  sameFields a b s1 s2 = true -> sameFields b c s2 s3 = true ->
  sameFields a c s1 s3 = true.
Proof.
  unfold sameFields. rewrite !andb_true_iff, !Z.eqb_eq, !Bool.eqb_true_iff.
  intros (((((((Ha & Hid) & Hseq) & Hact) & Hpos) & Htot) & Hdc) & Hit)
         (((((((Ha' & Hid') & Hseq') & Hact') & Hpos') & Htot') & Hdc') & Hit').
  repeat split; try congruence.
  exact (feqb_trans _ _ _ Hdc Hdc').
Qed.

(** X4: [Equals] is symmetric, and it answers on every pair of segments:
    swapping receiver and argument gives the same boolean. *)
Theorem Equals_symmetric sTp segTp s seg :
  Equals sTp segTp s seg = Equals segTp sTp seg s /\
  exists b, Equals sTp segTp s seg = Returns b.
Proof.
  rewrite !Equals_run. split; [| eexists; reflexivity].
  rewrite (Nat.eqb_sym (length (syns s))), (allAgree_sym (syns s)),
    (sameFields_sym sTp).
  reflexivity.
Qed.

(** X5: [Equals] is transitive. *)
Theorem Equals_transitive a b c s1 s2 s3 :
  Equals a b s1 s2 = Returns true ->
  Equals b c s2 s3 = Returns true ->
  Equals a c s1 s3 = Returns true.
Proof.
  rewrite !Equals_run. intros H12 H23.
  assert (E12 : (length (syns s1) =? length (syns s2))%nat
                && allAgree (syns s1) (syns s2) && sameFields a b s1 s2 = true)
    by (destruct ((length (syns s1) =? length (syns s2))%nat
                  && allAgree (syns s1) (syns s2) && sameFields a b s1 s2);
        [reflexivity | discriminate H12]).
  assert (E23 : (length (syns s2) =? length (syns s3))%nat
                && allAgree (syns s2) (syns s3) && sameFields b c s2 s3 = true)
    by (destruct ((length (syns s2) =? length (syns s3))%nat
                  && allAgree (syns s2) (syns s3) && sameFields b c s2 s3);
        [reflexivity | discriminate H23]).
  clear H12 H23.
  apply andb_true_iff in E12 as [E12 F12]. apply andb_true_iff in E12 as [L12 A12].
  apply andb_true_iff in E23 as [E23 F23]. apply andb_true_iff in E23 as [L23 A23].
  apply Nat.eqb_eq in L12, L23.
  f_equal. rewrite !andb_true_iff. repeat split.
  - apply Nat.eqb_eq. congruence.
  - exact (allAgree_trans _ _ _ L12 A12 A23).
  - exact (sameFields_trans _ _ _ _ _ _ F12 F23).
Qed.

Lemma Equals_transitive_witness :
  Equals 1 1 (exampleSegment [0; 0.25]%float) (exampleSegment [0; 0.25]%float)
  = Returns true.
Proof.
  apply (Equals_transitive 1 1 1 (exampleSegment [0; 0.25]%float)
                           (exampleSegment [-0; 0.25]%float)
                           (exampleSegment [0; 0.25]%float));
    reflexivity.
Defined.

(** X6: a segment equals itself exactly when it holds no NaN: neither a
    permanence nor the cached duty cycle. [Equals] compares floats with
    [!=] and [==], and a NaN differs from itself. *)
Theorem Equals_reflexive_iff_no_NaN sTp s :
  Equals sTp sTp s s = Returns true <->
  (forall y, In y (syns s) -> is_nan (Permanence y) = false) /\
  is_nan (lastPosDutyCycle s) = false.
Proof.
  rewrite Equals_run, Nat.eqb_refl, allAgree_same. unfold sameFields.
  rewrite !Z.eqb_refl, Bool.eqb_reflx. cbn [andb]. rewrite andb_true_r.
  split.
  - intros Hret. injection Hret as Hb.
    apply andb_true_iff in Hb as [Hall Hdc]. split.
    + intros y Hy. rewrite forallb_forall in Hall.
      apply negb_true_iff. exact (Hall y Hy).
    + unfold is_nan. rewrite Hdc. reflexivity.
  - intros [Hall Hdc]. f_equal. apply andb_true_iff. split.
    + apply forallb_forall. intros y Hy. apply negb_true_iff. exact (Hall y Hy).
    + apply negb_false_iff. exact Hdc.
Qed.

(** ** Duty cycle: cache discipline *)

Lemma int_sub_same a : int_sub a a = 0.
Proof. unfold int_sub. rewrite Z.sub_diag. reflexivity. Qed.

Lemma cache_written_twice dc lrn s :
  set_lastPosDutyCycle dc
    (set_lastPosDutyCycleIteration lrn
       (set_lastPosDutyCycle dc (set_lastPosDutyCycleIteration lrn s)))
  = set_lastPosDutyCycle dc (set_lastPosDutyCycleIteration lrn s).
Proof. reflexivity. Qed.

(** X7: right after [NewSegment], at the iteration it was created in, the
    duty cycle of the new segment for an inactive step is the cached
    initial value [1 / lrnIterationIdx], in every tier, and asking for it,
    read-only or not, leaves the new segment exactly as created. *)
Theorem NewSegment_then_dutyCycle
        (Pow : float -> float -> float)
        (GetSegId : TemporalPooler -> Z * TemporalPooler) tp isSequenceSeg readOnly :
  let seg := fst (NewSegment GetSegId tp isSequenceSeg) in
  let tp' := snd (NewSegment GetSegId tp isSequenceSeg) in
  dutyCycle Pow tp' false readOnly seg
  = (Returns (1 / float64_of_int (lrnIterationIdx tp'))%float, seg).
Proof.
  cbv zeta. unfold NewSegment. destruct (GetSegId tp) as [id tp']. cbn [fst snd].
  destruct (Z_le_gt_dec (lrnIterationIdx tp') 100) as [Hle | Hgt].
  - rewrite dutyCycle_first_tier by exact Hle.
    cbn [positiveActivations]. change (float64_of_int 1) with 1%float.
    destruct readOnly; reflexivity.
  - rewrite dutyCycle_cached; [reflexivity | lia |].
    cbn [lastPosDutyCycleIteration]. apply int_sub_same.
Qed.

(** X8: once the cache has been brought up to date by a non-read-only
    call, asking again for an inactive step at the same iteration returns
    the same value and changes nothing, in the first tier and beyond. *)
Theorem dutyCycle_repeated_inactive_call
        (Pow : float -> float -> float) tp active s :
  let first := dutyCycle Pow tp active false s in
  dutyCycle Pow tp false false (snd first) = (fst first, snd first).
Proof.
  cbv zeta.
  destruct (Z_le_gt_dec (lrnIterationIdx tp) 100) as [Hle | Hgt].
  - rewrite (dutyCycle_first_tier Pow tp active) by exact Hle.
    cbv zeta. cbn [fst snd].
    rewrite dutyCycle_first_tier by exact Hle. reflexivity.
  - destruct (Z.eq_dec (int_sub (lrnIterationIdx tp) (lastPosDutyCycleIteration s)) 0)
      as [Hage | Hage]; [destruct active |].
    + rewrite (dutyCycle_recomputed Pow tp true) by (auto; lia).
      cbv zeta. cbn [fst snd].
      rewrite dutyCycle_cached; [reflexivity | lia | apply int_sub_same].
    + rewrite (dutyCycle_cached Pow tp false s) by (auto; lia). cbn [fst snd].
      rewrite dutyCycle_cached by (auto; lia). reflexivity.
    + rewrite (dutyCycle_recomputed Pow tp active) by (auto; lia).
      cbv zeta. cbn [fst snd].
      rewrite dutyCycle_cached; [reflexivity | lia | apply int_sub_same].
Qed.

(** X9: [dutyCycle] writes to the two cache fields only: identity, flags,
    activation counts, last active iteration and synapses are the same
    after any call; and after a non-read-only call the cached duty cycle
    is the value just returned. *)
Theorem dutyCycle_touches_only_cache
        (Pow : float -> float -> float) tp active readOnly s :
  let s' := snd (dutyCycle Pow tp active readOnly s) in
  segId s' = segId s /\
  isSequenceSeg s' = isSequenceSeg s /\
  lastActiveIteration s' = lastActiveIteration s /\
  positiveActivations s' = positiveActivations s /\
  totalActivations s' = totalActivations s /\
  syns s' = syns s /\
  fst (dutyCycle Pow tp active false s)
  = Returns (lastPosDutyCycle (snd (dutyCycle Pow tp active false s))).
Proof.
  cbv zeta.
  destruct (Z_le_gt_dec (lrnIterationIdx tp) 100) as [Hle | Hgt].
  - rewrite !dutyCycle_first_tier by exact Hle.
    destruct readOnly; repeat split; reflexivity.
  - destruct (Z.eq_dec (int_sub (lrnIterationIdx tp) (lastPosDutyCycleIteration s)) 0)
      as [Hage | Hage]; [destruct active |].
    + rewrite !dutyCycle_recomputed by (auto; lia).
      destruct readOnly; repeat split; reflexivity.
    + rewrite !dutyCycle_cached by (auto; lia). repeat split; reflexivity.
    + rewrite !dutyCycle_recomputed by (auto; lia).
      destruct readOnly; repeat split; reflexivity.
Qed.

(** X10: the rate picked by the tier loop is 0 up to iteration 100 and
    positive after it; from iteration 101 on it never grows with the
    iteration count. *)
Theorem selectAlpha_decays (a b : Z) :
  a <= b ->
  (100 < a -> (selectAlpha b <=? selectAlpha a)%float = true) /\
  (a <= 100 -> selectAlpha a = 0%float) /\
  (100 < a -> (0 <? selectAlpha a)%float = true).
Proof.
  intros Hab. unfold selectAlpha.
  cbn [length SegmentDutyCycleTiers Nat.sub alphaLoop nth].
  repeat match goal with
         | |- context [?x >? ?y] => destruct (Z.gtb_spec x y)
         end;
    try lia;
    (split; [intros Hcase; (reflexivity || lia)
            | split; intros Hcase; (reflexivity || lia)]).
Qed.

Lemma selectAlpha_decays_witness :
  (selectAlpha 5000 <=? selectAlpha 200)%float = true.
Proof.
  apply (selectAlpha_decays 200 5000); lia.
Defined.

(** ** updateSynapses: bounds of the rewritten permanences *)

Lemma nth_error_mapFirst {A : Type} (f : A -> A) (m : nat) :
  forall (l : list A) (k : nat),
    (k < m)%nat -> nth_error (mapFirst f m l) k = option_map f (nth_error l k).
Proof.
  induction m as [| m IH]; intros [| x l] [| k] Hk; cbn; try reflexivity; try lia.
  apply IH. lia.
Qed.

Lemma raised_below_max max delta y :
  (max <? Permanence (raised max delta y))%float = false.
Proof.
  unfold raised. cbn [Permanence set_Permanence].
  destruct (max <? Permanence y + delta)%float eqn:Hcap;
    [apply fltb_irrefl | exact Hcap].
Qed.

Lemma lowered_not_negative delta y :
  (Permanence (lowered delta y) <? 0)%float = false.
Proof.
  unfold lowered. cbn [Permanence set_Permanence].
  destruct (Permanence y + delta <=? 0)%float eqn:Hfloor; [reflexivity |].
  destruct (Permanence y + delta <? 0)%float eqn:Hneg; [| reflexivity].
  apply fltb_fleb in Hneg. congruence.
Qed.

(** X11: every permanence that [updateSynapses] rewrites ends on the
    right side of the bound of its branch: not above [PermanenceMax]
    after a raise ([delta > 0]), not below 0 after a lowering; this holds
    for the synapses rewritten before a panic as well. *)
Theorem updateSynapses_keeps_bound tp synapses delta s k y :
  (k < length synapses)%nat ->
  nth_error (syns (snd (updateSynapses tp synapses delta s))) k = Some y ->
  if (0 <? delta)%float
  then (PermanenceMax (params tp) <? Permanence y)%float = false
  else (Permanence y <? 0)%float = false.
Proof.
  intros Hk. rewrite updateSynapses_run. cbv zeta.
  destruct (0 <? delta)%float; cbn [snd syns set_syns];
    rewrite nth_error_mapFirst by exact Hk;
    destruct (nth_error (syns s) k) as [y0 |]; cbn [option_map]; try discriminate;
    intros Hy; injection Hy as <-.
  - apply raised_below_max.
  - apply lowered_not_negative.
Qed.

Lemma updateSynapses_keeps_bound_witness :
  (Permanence (mkSynapse 9 1 1) <? 0)%float = false.
Proof.
  apply (updateSynapses_keeps_bound (exampleTp 1) [7] (-0.25)%float
                                    (exampleSegment [1.25; 0.5]%float) 0
                                    (mkSynapse 9 1 1)).
  - cbn; lia.
  - reflexivity.
Defined.

(** ** getSegmentActiveSynapses: order of the base list *)

Lemma positions_from_sorted (n : nat) : forall k,
  StronglySorted Z.lt (map Z.of_nat (seq k n)).
Proof.
  induction n as [| n IH]; intros k; cbn; constructor; [apply IH |].
  apply Forall_forall. intros z Hz.
  apply in_map_iff in Hz as (j & <- & Hj). apply in_seq in Hj. lia.
Qed.

Lemma sorted_fst_filter_combine {A : Type} (f : Z * A -> bool) (ks : list Z) :
  forall l : list A,
    StronglySorted Z.lt ks ->
    StronglySorted Z.lt (map fst (filter f (combine ks l))).
Proof.
  induction ks as [| k ks IH]; intros [| y l] Hsorted; cbn; try constructor.
  apply StronglySorted_inv in Hsorted as [Hrest Hhead].
  destruct (f (k, y)); cbn; [constructor |]; try (apply IH; exact Hrest).
  apply Forall_forall. intros z Hz.
  apply in_map_iff in Hz as ([k' y'] & <- & Hin). apply filter_In in Hin as [Hin _].
  apply in_combine_l in Hin. rewrite Forall_forall in Hhead. exact (Hhead k' Hin).
Qed.

(** X12: the base list of a proposal names its synapses in strictly
    increasing position, so it is never longer than the segment's synapse
    collection. *)
Theorem baseActiveSynapses_increasing
        (SparseBinaryMatrix : Type) (Get : SparseBinaryMatrix -> Z -> Z -> bool)
        seg activeState :
  StronglySorted Z.lt (map Index (baseActiveSynapses Get (Some seg) activeState)) /\
  (length (baseActiveSynapses Get (Some seg) activeState) <= length (syns seg))%nat.
Proof.
  split.
  - rewrite baseActiveSynapses_indices. unfold enumerate, positions.
    apply sorted_fst_filter_combine, positions_from_sorted.
  - unfold baseActiveSynapses. rewrite collectActive_closed_form. cbn [app].
    rewrite length_map.
    etransitivity; [apply filter_length_le |].
    unfold enumerate. rewrite length_combine, length_positions. lia.
Qed.

(** ** AddSynapse and the other operations *)

Lemma AddSynapse_run srcCellCol srcCellIdx perm s :
  AddSynapse srcCellCol srcCellIdx perm s
  = (Returns tt, set_syns (syns s ++ [mkSynapse srcCellCol srcCellIdx perm]) s).
Proof. reflexivity. Qed.

Lemma combine_snoc {A B : Type} (ks : list A) : forall (l : list B) k x,
  length ks = length l ->
  combine (ks ++ [k]) (l ++ [x]) = combine ks l ++ [(k, x)].
Proof.
  induction ks as [| k0 ks IH]; intros [| y l] k x Hlen; cbn in *; try discriminate.
  - reflexivity.
  - rewrite IH by lia. reflexivity.
Qed.

Lemma enumerate_snoc {A : Type} (l : list A) x :
  enumerate (l ++ [x]) = enumerate l ++ [(len l, x)].
Proof.
  unfold enumerate, positions, len.
  rewrite length_app. cbn [length]. rewrite Nat.add_1_r, seq_S, map_app. cbn [map Nat.add].
  apply combine_snoc. rewrite length_map, length_seq. reflexivity.
Qed.

Lemma mapFirst_snoc {A : Type} (f : A -> A) (m : nat) : forall (l : list A) x,
  (m <= length l)%nat -> mapFirst f m (l ++ [x]) = mapFirst f m l ++ [x].
Proof.
  induction m as [| m IH]; intros [| y l] x Hm; cbn in *; try reflexivity; try lia.
  rewrite IH by lia. reflexivity.
Qed.

Lemma firstn_snoc {A : Type} (m : nat) (l : list A) x :
  (m <= length l)%nat -> firstn m (l ++ [x]) = firstn m l.
Proof.
  intros Hm. rewrite firstn_app.
  replace (m - length l)%nat with O by lia. cbn. apply app_nil_r.
Qed.

(** X13: a synapse added with [AddSynapse] shows up in the next proposal
    exactly when its source cell is active: the base list is the one of
    before, followed by the position of the new synapse in that case. *)
Theorem AddSynapse_then_base_list
        (SparseBinaryMatrix : Type) (Get : SparseBinaryMatrix -> Z -> Z -> bool)
        activeState srcCellCol srcCellIdx perm s :
  baseActiveSynapses Get (Some (snd (AddSynapse srcCellCol srcCellIdx perm s)))
                     activeState
  = baseActiveSynapses Get (Some s) activeState
    ++ (if Get activeState srcCellCol srcCellIdx
        then [mkSynapseUpdateState false (len (syns s)) 0]
        else []).
Proof.
  rewrite AddSynapse_run. unfold baseActiveSynapses. cbn [snd syns set_syns].
  rewrite !collectActive_closed_form. cbn [app].
  rewrite enumerate_snoc, filter_app, map_app. f_equal.
  cbn [filter snd]. unfold sourceActive. cbn [SrcCellCol SrcCellIdx].
  destruct (Get activeState srcCellCol srcCellIdx); reflexivity.
Qed.

(** X14: [AddSynapse] and [updateSynapses] commute as long as the index
    list is no longer than the synapse collection before the addition:
    the update then never reaches the new synapse. *)
Theorem AddSynapse_updateSynapses_commute
        tp synapses delta srcCellCol srcCellIdx perm s :
  (length synapses <= length (syns s))%nat ->
  (AddSynapse srcCellCol srcCellIdx perm ;;; updateSynapses tp synapses delta) s
  = (hitZero <- updateSynapses tp synapses delta ;;
     AddSynapse srcCellCol srcCellIdx perm ;;; ret hitZero) s.
Proof.
  intros Hfits. unfold bind. rewrite AddSynapse_run, !updateSynapses_run. cbv zeta.
  cbn [syns set_syns]. rewrite length_app. cbn [length].
  assert (Hfits' : (length synapses <=? length (syns s) + 1)%nat = true)
    by (apply Nat.leb_le; lia).
  apply Nat.leb_le in Hfits as Hfitsb. rewrite Hfits', Hfitsb.
  rewrite !mapFirst_snoc by exact Hfits. rewrite firstn_snoc by exact Hfits.
  destruct (0 <? delta)%float; reflexivity.
Qed.

Lemma AddSynapse_updateSynapses_commute_witness :
  (AddSynapse 11 1 0.5 ;;; updateSynapses (exampleTp 1) [0; 1] 0.125)
    (exampleSegment [0.5; 0.25]%float)
  = (Returns false, exampleSegment [0.625; 0.375; 0.5]%float).
Proof.
  etransitivity.
  - apply (AddSynapse_updateSynapses_commute (exampleTp 1) [0; 1] 0.125%float 11 1
                                             0.5%float (exampleSegment [0.5; 0.25]%float)).
    cbn; lia.
  - reflexivity.
Defined.

(** ** freeNSynapses: nothing to free *)

(** X15: asked to free no synapse (or a negative number of them) with an
    empty list of inactive synapses, [freeNSynapses] returns without
    calling [Argsort] and leaves the segment as it was. *)
Theorem freeNSynapses_nothing_asked
        (Argsort : list float -> list Z -> outcome (list float * list Z))
        tp numToFree s :
  numToFree <= 0 ->
  freeNSynapses Argsort tp numToFree [] s = (Returns tt, s).
Proof.
  intros Hn. unfold freeNSynapses, bind, get.
  destruct (Z.gtb_spec numToFree (len (syns s))) as [Hgt | _];
    [unfold len in Hgt; lia |].
  cbn [len length Z.of_nat Z.gtb Z.compare ret].
  destruct (Z.ltb_spec 0 numToFree); [lia |].
  unfold ret, modify. rewrite survivors_nil, set_syns_same. reflexivity.
Qed.

Lemma freeNSynapses_nothing_asked_witness :
  freeNSynapses (fun dst inds => Panics IndexOutOfRange) (exampleTp 1) 0 []
                (exampleSegment [0.5; 0.25]%float)
  = (Returns tt, exampleSegment [0.5; 0.25]%float).
Proof.
  apply (freeNSynapses_nothing_asked (fun dst inds => Panics IndexOutOfRange)
                                     (exampleTp 1) 0 (exampleSegment [0.5; 0.25]%float)).
  lia.
Defined.

(** ** getConnected *)

Lemma setNth_after_prefix {A : Type} (done : list A) b tl v (k : nat) :
  k = length done -> setNth (done ++ b :: tl) k v = done ++ v :: tl.
Proof. intros ->. apply setNth_at_split. Qed.

Lemma getConnectedLoop_run (thr : float) (rest : list float) :
  forall (pre : list float) (done tl : list bool) (numcon : Z),
    length done = length pre ->
    length tl = length rest ->
    getConnectedLoop (pre ++ rest) thr
                     (map Z.of_nat (seq (length pre) (length rest))) numcon (done ++ tl)
    = Returns (numcon + Z.of_nat (length (filter (fun p => (thr <=? p)%float) rest)),
               done ++ map (fun p => (thr <=? p)%float) rest).
Proof.
  induction rest as [| p rest IH]; intros pre done [| b tl] numcon Hdone Htl;
    try discriminate.
  - cbn. rewrite Z.add_0_r. reflexivity.
  - cbn [length seq map getConnectedLoop filter].
    rewrite Nat2Z.id, nth_error_at_split.
    replace (S (length pre)) with (length (pre ++ [p]))
      by (rewrite length_app; cbn; lia).
    replace (pre ++ p :: rest) with ((pre ++ [p]) ++ rest)
      by (rewrite <- app_assoc; reflexivity).
    destruct (thr <=? p)%float;
      rewrite (setNth_after_prefix done b tl) by (symmetry; exact Hdone);
      match goal with
      | |- context [done ++ ?v :: tl] =>
          replace (done ++ v :: tl) with ((done ++ [v]) ++ tl)
            by (rewrite <- app_assoc; reflexivity)
      end;
      rewrite IH by (try (rewrite !length_app; cbn); cbn in Htl; lia);
      rewrite <- app_assoc; cbn [app length]; f_equal; f_equal; lia.
Qed.

Lemma count_true_of_map {A : Type} (test : A -> bool) (l : list A) :
  count_occ Bool.bool_dec (map test l) true = length (filter test l).
Proof.
  induction l as [| x l IH]; cbn; [reflexivity |].
  destruct (test x); cbn; rewrite IH; reflexivity.
Qed.

(** X16: [getConnected] never panics; its bitmap has one flag for each
    permanence, set exactly where the permanence is [>=] the threshold (so
    never at a NaN), and its count is the number of set flags, between 0
    and the number of permanences. *)
Theorem getConnected_bitmap_and_count perm SynPermConnected :
  exists numcon connected,
    getConnected perm SynPermConnected = Returns (numcon, connected) /\
    connected = map (fun p => (SynPermConnected <=? p)%float) perm /\
    numcon = Z.of_nat (count_occ Bool.bool_dec connected true) /\
    0 <= numcon <= len perm.
Proof.
  exists (Z.of_nat (length (filter (fun p => (SynPermConnected <=? p)%float) perm))).
  exists (map (fun p => (SynPermConnected <=? p)%float) perm).
  repeat split.
  - unfold getConnected, upto, len. rewrite Nat2Z.id.
    pose proof (getConnectedLoop_run SynPermConnected perm [] []
                                     (repeat false (length perm)) 0 eq_refl
                                     (repeat_length _ _)) as Hrun.
    cbn [app length] in Hrun. rewrite Hrun. reflexivity.
  - rewrite count_true_of_map. reflexivity.
  - lia.
  - unfold len. apply Nat2Z.inj_le, filter_length_le.
Qed.

(** ** Equals and AddSynapse *)

Lemma allAgree_snoc (l1 : list Synapse) : forall l2 y,
  length l1 = length l2 ->
  allAgree (l1 ++ [y]) (l2 ++ [y]) = allAgree l1 l2 && negb (is_nan (Permanence y)).
Proof.
  intros l2 y Hlen. unfold allAgree.
  rewrite combine_snoc by exact Hlen. rewrite forallb_app. f_equal.
  cbn. unfold synapsesDiffer, is_nan. rewrite !Z.eqb_refl. cbn.
  rewrite !orb_false_r, andb_true_r. reflexivity.
Qed.

(** X17: adding the same synapse to two segments that [Equals] accepts
    keeps them equal, unless the permanence added is a NaN, in which case
    they stop being equal. *)
Theorem Equals_after_AddSynapse sTp segTp s seg srcCellCol srcCellIdx perm :
  Equals sTp segTp s seg = Returns true ->
  Equals sTp segTp (snd (AddSynapse srcCellCol srcCellIdx perm s))
                   (snd (AddSynapse srcCellCol srcCellIdx perm seg))
  = Returns (negb (is_nan perm)).
Proof.
  rewrite !Equals_run, !AddSynapse_run. cbn [snd syns set_syns].
  intros Heq. injection Heq as Heq.
  apply andb_true_iff in Heq as [Heq Hfields].
  apply andb_true_iff in Heq as [Hlen Hagree].
  apply Nat.eqb_eq in Hlen.
  rewrite !length_app, Hlen, Nat.eqb_refl. cbn [andb].
  rewrite allAgree_snoc by exact Hlen. rewrite Hagree. cbn [andb Permanence].
  replace (sameFields sTp segTp _ _) with (sameFields sTp segTp s seg) by reflexivity.
  rewrite Hfields, andb_true_r. reflexivity.
Qed.

Lemma Equals_after_AddSynapse_witness :
  Equals 1 1 (snd (AddSynapse 11 1 nan (exampleSegment [0.5; 0.25]%float)))
             (snd (AddSynapse 11 1 nan (exampleSegment [0.5; 0.25]%float)))
  = Returns false.
Proof.
  apply (Equals_after_AddSynapse 1 1 (exampleSegment [0.5; 0.25]%float)
                                 (exampleSegment [0.5; 0.25]%float) 11 1 nan).
  reflexivity.
Defined.

(** ** getSegmentActiveSynapses: size of a growing proposal *)

(** X18: when growth is requested and the selection policy delivers as
    many cells as it is asked for, the proposal has exactly
    [NewSynapseCount] entries, provided the base list is not already
    longer than that. *)
Theorem growing_proposal_size
        (SparseBinaryMatrix : Type) (Get : SparseBinaryMatrix -> Z -> Z -> bool)
        (chooseCellsToLearnFrom :
           TemporalPooler -> option Segment -> Z -> SparseBinaryMatrix
           -> list SparseEntry)
        tp c i s activeState :
  let base := baseActiveSynapses Get s activeState in
  let asked := int_sub (NewSynapseCount (params tp)) (len base) in
  len base <= NewSynapseCount (params tp) < 2 ^ 63 ->
  length (chooseCellsToLearnFrom tp s asked activeState) = Z.to_nat asked ->
  len (activeSynapses
         (fst (getSegmentActiveSynapses Get chooseCellsToLearnFrom
                                        tp c i s activeState true)))
  = NewSynapseCount (params tp).
Proof.
  cbv zeta. intros Hrange Hdelivered.
  unfold getSegmentActiveSynapses. cbn [fst activeSynapses].
  rewrite appended_new_synapses. unfold len in *.
  rewrite length_app, length_map, Hdelivered.
  rewrite int_sub_in_range by lia. lia.
Qed.

Lemma growing_proposal_size_witness :
  len (activeSynapses
         (fst (getSegmentActiveSynapses exampleGet exampleChoose (exampleTp 1) 4 0
                 (Some (exampleSegment [0.5; 0.25; 0.75]%float)) [10] true)))
  = 3.
Proof.
  apply (growing_proposal_size (list Z) exampleGet exampleChoose (exampleTp 1) 4 0
                               (Some (exampleSegment [0.5; 0.25; 0.75]%float)) [10]).
  - cbn. lia.
  - reflexivity.
Defined.
